(** * hdgraph: a map-backed directed graph with strong components

    A shallow embedding of [hdgraph.go].  Node identities are Go [int]s;
    the program never does arithmetic on them, so they are modelled as [Z].
    A Go [map[int]struct{}] is a [gset Z], a [map[int]map[int]struct{}] is a
    [gmap Z (gset Z)], a [[]bool] indexed by node is a [list bool] with the
    bounds check of the Go runtime written out.

    Ranging over a Go map visits the keys in an unspecified order that may
    differ from one [range] statement to the next.  The traversal code is
    therefore parameterised by [range_order]: the [t]-th [range] statement
    executed visits the keys of the set [s] in the order [range_order t s]. *)

From stdpp Require Import gmap list sets relations sorting.
From Stdlib Require Import ZArith Lia.

Local Open Scope Z_scope.
#[local] Set Warnings "-clear-no-such-hyp".

(** ** Outcomes of running code *)

(** [Panics] is a Go runtime panic (index out of range, assignment to an
    entry of a nil map); [OutOfFuel] only says that the recursion bound of
    the model was too small. *)
Inductive outcome (A : Type) : Type :=
  | Done (a : A)
  | Panics
  | OutOfFuel.
Arguments Done {A} a.
Arguments Panics {A}.
Arguments OutOfFuel {A}.

Definition obind {A B} (f : A → outcome B) (m : outcome A) : outcome B :=
  match m with
  | Done a => f a
  | Panics => Panics
  | OutOfFuel => OutOfFuel
  end.

#[global] Instance outcome_ret : MRet outcome := λ A a, Done a.
#[global] Instance outcome_bind : MBind outcome := λ A B f m, obind f m.

(** ** The graph *)

(** [type Graph struct { out, in map[int]map[int]struct{} }], for graphs
    whose two top-level maps are allocated (as [New] makes them). *)
Record Graph : Type := mkGraph {
  out : gmap Z (gset Z);
  in_ : gmap Z (gset Z)
}.

Definition New : Graph := {| out := ∅; in_ := ∅ |}.

Definition Add (node : Z) (g : Graph) : Graph :=
  match out g !! node with
  | Some _ => g
  | None => {| out := <[node := ∅]> (out g); in_ := <[node := ∅]> (in_ g) |}
  end.

(** [delete(m[dst], node)]: deleting from the nil map of an absent key does
    nothing. *)
Definition unset (node dst : Z) (m : gmap Z (gset Z)) : gmap Z (gset Z) :=
  alter (λ s, s ∖ {[node]}) dst m.

(** The loop [for dst := range out { delete(g.in[dst], node) }] run over
    the keys in the order [dsts]. *)
Definition scrub (node : Z) (dsts : list Z) (m : gmap Z (gset Z))
  : gmap Z (gset Z) :=
  foldl (λ m dst, unset node dst m) m dsts.

Definition Remove (node : Z) (g : Graph) : Graph :=
  let o := default ∅ (out g !! node) in
  {| out := delete node (out g);
     in_ := scrub node (elements o) (in_ g) |}.

(** [g.out[src][dst] = struct{}{}] panics when [g.out[src]] is nil, and so
    does the write to [g.in[dst]]. *)
Definition Link (src dst : Z) (g : Graph) : outcome Graph :=
  let g := Add src g in
  let g := Add dst g in
  match out g !! src with
  | None => Panics
  | Some o =>
      match in_ g !! dst with
      | None => Panics
      | Some i =>
          Done {| out := <[src := o ∪ {[dst]}]> (out g);
                  in_ := <[dst := i ∪ {[src]}]> (in_ g) |}
      end
  end.

Definition Unlink (src dst : Z) (g : Graph) : Graph :=
  {| out := unset dst src (out g);
     in_ := unset src dst (in_ g) |}.

(** ** The traversal state *)

(** [d.graph] aliases one of the two maps of the graph; the graph itself
    lives in [mem], next to the [dfser] value and the count of [range]
    statements run so far. *)
Inductive mapref : Type := ref_out | ref_in.

Record dfser : Type := mkDfser {
  graph : mapref;
  order : list Z;
  flip : list bool
}.

Record state : Type := mkState {
  mem : Graph;
  self : dfser;
  clock : nat
}.

Definition deref (g : Graph) (r : mapref) : gmap Z (gset Z) :=
  match r with
  | ref_out => out g
  | ref_in => in_ g
  end.

(** [d.graph[node]], the nil map reading as the empty set. *)
Definition neighbors (s : state) (node : Z) : gset Z :=
  default ∅ (deref (mem s) (graph (self s)) !! node).

Definition set_flip (fl : list bool) (s : state) : state :=
  {| mem := mem s;
     self := {| graph := graph (self s); order := order (self s); flip := fl |};
     clock := clock s |}.

Definition set_order (o : list Z) (s : state) : state :=
  {| mem := mem s;
     self := {| graph := graph (self s); order := o; flip := flip (self s) |};
     clock := clock s |}.

Definition set_graph (r : mapref) (s : state) : state :=
  {| mem := mem s;
     self := {| graph := r; order := order (self s); flip := flip (self s) |};
     clock := clock s |}.

(** [d.flip[node]] with the bounds check of the runtime. *)
Definition flip_at (fl : list bool) (node : Z) : option bool :=
  if decide (0 ≤ node) then fl !! Z.to_nat node else None.

Definition sawTrue (node : Z) (s : state) : outcome (bool * state) :=
  match flip_at (flip (self s)) node with
  | None => Panics
  | Some r => Done (r, set_flip (<[Z.to_nat node := true]> (flip (self s))) s)
  end.

Definition sawFalse (node : Z) (s : state) : outcome (bool * state) :=
  match flip_at (flip (self s)) node with
  | None => Panics
  | Some r => Done (negb r, set_flip (<[Z.to_nat node := false]> (flip (self s))) s)
  end.

Definition tick (s : state) : state :=
  {| mem := mem s; self := self s; clock := S (clock s) |}.

(** A [for x := range ...] loop over the keys [l] in that order. *)
Fixpoint for_each {S : Type} (body : Z → S → outcome S) (l : list Z) (s : S)
  : outcome S :=
  match l with
  | [] => Done s
  | x :: l' => s' ← body x s; for_each body l' s'
  end.

Section Traversal.

Variable range_order : nat → gset Z → list Z.

(** One [range] statement: the order it picks, and the clock advanced. *)
Definition range (keys : gset Z) (s : state) : list Z * state :=
  (range_order (clock s) keys, tick s).

Fixpoint dfs1 (fuel : nat) (node : Z) (s : state) : outcome state :=
  match fuel with
  | O => OutOfFuel
  | S fuel' =>
      let '(ns, s) := range (neighbors s node) s in
      s ← for_each (λ neighbor s,
             '(r, s) ← sawTrue neighbor s;
             if r : bool then Done s else dfs1 fuel' neighbor s) ns s;
      Done (set_order (order (self s) ++ [node]) s)
  end.

Fixpoint dfs2 (fuel : nat) (node : Z) (s : state) : outcome state :=
  match fuel with
  | O => OutOfFuel
  | S fuel' =>
      let '(ns, s) := range (neighbors s node) s in
      s ← for_each (λ neighbor s,
             '(r, s) ← sawFalse neighbor s;
             if r : bool then Done s else dfs2 fuel' neighbor s) ns s;
      Done (set_order (order (self s) ++ [node]) s)
  end.

(** The second loop of [StrongComponents], over [order] from its last
    index down, carrying [components] next to the state. *)
Definition extract (fuel : nat) (node : Z) (sc : state * list (list Z))
  : outcome (state * list (list Z)) :=
  let '(s, components) := sc in
  '(r, s) ← sawFalse node s;
  if r : bool then Done (s, components)
  else
    s ← dfs2 fuel node s;
    let component := order (self s) in
    Done (set_order [] s, components ++ [component]).

(** The recursion of [dfs1] and [dfs2] nests at most once per marker
    still to flip, so [S (length flip)] levels are enough (see
    [StrongComponents_never_out_of_fuel]). *)
Definition StrongComponents (g : Graph) : outcome (Graph * list (list Z)) :=
  let n := size (out g) in
  let s := {| mem := g;
              self := {| graph := ref_out; order := [];
                         flip := replicate n false |};
              clock := O |} in
  let '(roots, s) := range (dom (out g)) s in
  s ← for_each (λ node s,
         '(r, s) ← sawTrue node s;
         if r : bool then Done s else dfs1 (S n) node s) roots s;
  let order := order (self s) in
  let s := set_graph ref_in (set_order [] s) in
  '(s, components) ← for_each (extract (S n)) (rev order) (s, []);
  Done (mem s, components).

End Traversal.

(** Operations as data, to speak of every graph the interface can build. *)
Inductive op : Type :=
  | OpAdd (node : Z)
  | OpRemove (node : Z)
  | OpLink (src dst : Z)
  | OpUnlink (src dst : Z).

Definition run_op (o : op) (g : Graph) : outcome Graph :=
  match o with
  | OpAdd n => Done (Add n g)
  | OpRemove n => Done (Remove n g)
  | OpLink s d => Link s d g
  | OpUnlink s d => Done (Unlink s d g)
  end.

Fixpoint run_ops (os : list op) (g : Graph) : outcome Graph :=
  match os with
  | [] => Done g
  | o :: os' => g' ← run_op o g; run_ops os' g'
  end.

(** Two concrete iteration orders, to run the code: every [range]
    statement visits the keys from the smallest up, or from the largest
    down. *)
Definition ascending : nat → gset Z → list Z :=
  λ _ s, merge_sort Z.le (elements s).
Definition descending : nat → gset Z → list Z :=
  λ _ s, rev (merge_sort Z.le (elements s)).

(** ** The two passes as one search

    [dfs1] with [sawTrue] and [dfs2] with [sawFalse] are the same search at
    the two polarities of the marker: at polarity [pol] a node is marked
    when its marker equals [pol]. *)

Definition saw (pol : bool) (node : Z) (s : state) : outcome (bool * state) :=
  match flip_at (flip (self s)) node with
  | None => Panics
  | Some r => Done (eqb r pol, set_flip (<[Z.to_nat node := pol]> (flip (self s))) s)
  end.

Section Generic.

Variable range_order : nat → gset Z → list Z.
Variable pol : bool.

Fixpoint dfs (fuel : nat) (node : Z) (s : state) : outcome state :=
  match fuel with
  | O => OutOfFuel
  | S fuel' =>
      let '(ns, s) := range range_order (neighbors s node) s in
      s ← for_each (λ neighbor s,
             '(r, s) ← saw pol neighbor s;
             if r : bool then Done s else dfs fuel' neighbor s) ns s;
      Done (set_order (order (self s) ++ [node]) s)
  end.

(** [if !d.saw(node) { d.dfs(node) }] *)
Definition visit (fuel : nat) (node : Z) (s : state) : outcome state :=
  '(r, s) ← saw pol node s;
  if r : bool then Done s else dfs fuel node s.

End Generic.

Lemma for_each_ext {S : Type} (f g : Z → S → outcome S) l s :
  (∀ x s, f x s = g x s) → for_each f l s = for_each g l s.
Proof.
  intros Hfg. revert s. induction l as [|x l IH]; intros s; simpl; [done|].
  rewrite Hfg. destruct (g x s); simpl; auto.
Qed.

Lemma sawTrue_saw node s : sawTrue node s = saw true node s.
Proof.
  unfold sawTrue, saw. destruct (flip_at _ _) as [[]|]; reflexivity.
Qed.

Lemma sawFalse_saw node s : sawFalse node s = saw false node s.
Proof.
  unfold sawFalse, saw. destruct (flip_at _ _) as [[]|]; reflexivity.
Qed.

Lemma dfs1_dfs ord fuel node s : dfs1 ord fuel node s = dfs ord true fuel node s.
Proof.
  revert node s. induction fuel as [|fuel IH]; intros node s; simpl; [done|].
  f_equal; try (apply for_each_ext; intros x s'; rewrite sawTrue_saw;
    destruct (saw true x s') as [[[] ?]| |]; simpl; auto).
Qed.

Lemma dfs2_dfs ord fuel node s : dfs2 ord fuel node s = dfs ord false fuel node s.
Proof.
  revert node s. induction fuel as [|fuel IH]; intros node s; simpl; [done|].
  f_equal; try (apply for_each_ext; intros x s'; rewrite sawFalse_saw;
    destruct (saw false x s') as [[[] ?]| |]; simpl; auto).
Qed.

Lemma dfs_unfold ord pol fuel node s :
  dfs ord pol (S fuel) node s =
  s' ← for_each (visit ord pol fuel) (ord (clock s) (neighbors s node))
        (tick s);
  Done (set_order (order (self s') ++ [node]) s').
Proof. reflexivity. Qed.

(** ** Markers at one polarity *)

Section Markers.

Variable pol : bool.

Definition marked (fl : list bool) (x : Z) : Prop := flip_at fl x = Some pol.
Definition fresh (fl : list bool) (x : Z) : Prop :=
  flip_at fl x = Some (negb pol).
Definition mark (x : Z) (fl : list bool) : list bool :=
  <[Z.to_nat x := pol]> fl.

(** How many markers are still to flip. *)
Definition nfresh (fl : list bool) : nat :=
  length (filter (λ b, b = negb pol) fl).

Lemma flip_at_range fl x b :
  flip_at fl x = Some b → 0 ≤ x < Z.of_nat (length fl).
Proof.
  unfold flip_at. case_decide; [|done]. intros Hl%lookup_lt_Some. lia.
Qed.

Lemma flip_at_is_Some fl x :
  0 ≤ x < Z.of_nat (length fl) → is_Some (flip_at fl x).
Proof.
  intros Hx. unfold flip_at. rewrite decide_True by lia.
  apply lookup_lt_is_Some. lia.
Qed.

Lemma marked_or_fresh fl x :
  0 ≤ x < Z.of_nat (length fl) → marked fl x ∨ fresh fl x.
Proof.
  intros [b Hb]%flip_at_is_Some. unfold marked, fresh. rewrite Hb.
  destruct b, pol; simpl; auto.
Qed.

Lemma marked_not_fresh fl x : marked fl x → fresh fl x → False.
Proof. unfold marked, fresh. intros ->. destruct pol; discriminate. Qed.

Lemma mark_marked fl x : is_Some (flip_at fl x) → marked (mark x fl) x.
Proof.
  intros [b Hb]. pose proof (flip_at_range _ _ _ Hb) as Hr.
  unfold marked, mark, flip_at. rewrite decide_True by lia.
  apply list_lookup_insert_eq. lia.
Qed.

Lemma flip_at_mark_ne fl x y :
  0 ≤ x → x ≠ y → flip_at (mark x fl) y = flip_at fl y.
Proof.
  intros Hx Hne. unfold flip_at, mark. case_decide; [|done].
  apply list_lookup_insert_ne. lia.
Qed.

Lemma length_mark fl x : length (mark x fl) = length fl.
Proof. apply length_insert. Qed.

Lemma nfresh_insert fl i :
  fl !! i = Some (negb pol) → S (nfresh (<[i:=pol]> fl)) = nfresh fl.
Proof.
  unfold nfresh. revert i. induction fl as [|b fl IH]; intros i Hi; [done|].
  destruct i as [|i]; simpl in *.
  - injection Hi as ->. rewrite !filter_cons.
    rewrite decide_False by (destruct pol; discriminate).
    rewrite decide_True by done. done.
  - rewrite !filter_cons. case_decide; simpl; rewrite <- (IH i Hi); done.
Qed.

Lemma nfresh_mark fl x : fresh fl x → (nfresh (mark x fl) < nfresh fl)%nat.
Proof.
  unfold fresh, flip_at, mark. case_decide; [|done]. intros H'.
  rewrite <- (nfresh_insert _ _ H'). lia.
Qed.

Lemma nfresh_replicate n : nfresh (replicate n (negb pol)) = n.
Proof.
  unfold nfresh. induction n as [|n IH]; [done|]. simpl.
  rewrite filter_cons, decide_True by done. simpl. by rewrite IH.
Qed.

Lemma nfresh_length fl : (nfresh fl ≤ length fl)%nat.
Proof. apply length_filter. Qed.

End Markers.

(** ** Edges, paths and the blocks a search appends *)

Section Blocks.

Variable m : gmap Z (gset Z).
Variable pol : bool.

(** [b] is in [m[a]]. *)
Definition edges (a b : Z) : Prop := b ∈ default ∅ (m !! a).
Definition reach : Z → Z → Prop := rtc edges.

(** Every neighbour of a node below [n] is below [n]. *)
Definition closed (n : nat) : Prop :=
  ∀ a b, 0 ≤ a < Z.of_nat n → edges a b → 0 ≤ b < Z.of_nat n.

(** What a run of searches does to the markers: from [fl] it flips
    exactly the nodes of [L], each fresh before, and appends them in the
    order of [L]; every neighbour of a node of [L] is marked afterwards,
    and an edge of [L] that points forward in [L] points to a node that
    reaches everything in between. *)
Record block (fl : list bool) (L : list Z) (fl' : list bool) : Prop := {
  blk_len : length fl' = length fl;
  blk_keep : ∀ x, marked pol fl x → marked pol fl' x;
  blk_new : ∀ x, marked pol fl' x → marked pol fl x ∨ x ∈ L;
  blk_fresh : ∀ x, x ∈ L → fresh pol fl x ∧ marked pol fl' x;
  blk_nodup : NoDup L;
  blk_closed : ∀ a b, a ∈ L → edges a b → marked pol fl' b;
  blk_back : ∀ i j k a b w,
    L !! i = Some a → L !! j = Some b → L !! k = Some w →
    edges a b → (i < j)%nat → (i ≤ k ≤ j)%nat → reach b w;
  blk_count : (nfresh pol fl' ≤ nfresh pol fl)%nat
}.

Lemma block_nil fl : block fl [] fl.
Proof.
  split; auto; try (intros; set_solver). constructor.
Qed.

Lemma block_app fl0 A fl1 L fl2 :
  block fl0 A fl1 → block fl1 L fl2 → block fl0 (A ++ L) fl2.
Proof.
  intros HA HL. split.
  - rewrite (blk_len _ _ _ HL). apply HA.
  - intros x Hx. by apply HL, HA.
  - intros x Hx. rewrite elem_of_app.
    destruct (blk_new _ _ _ HL x Hx) as [H1|H1]; [|by auto].
    destruct (blk_new _ _ _ HA x H1); auto.
  - intros x [Hx|Hx]%elem_of_app.
    + destruct (blk_fresh _ _ _ HA x Hx) as [? ?]. split; [done|].
      by apply HL.
    + destruct (blk_fresh _ _ _ HL x Hx) as [Hf Hm]. split; [|done].
      pose proof (flip_at_range _ _ _ Hf) as Hr.
      rewrite (blk_len _ _ _ HA) in Hr.
      destruct (marked_or_fresh pol fl0 x Hr) as [Hm0|]; [|done].
      destruct (marked_not_fresh pol fl1 x); [by apply HA|done].
  - apply NoDup_app. split; [apply HA|]. split; [|apply HL].
    intros x Hx Hx'.
    apply (marked_not_fresh pol fl1 x).
    + by apply (blk_fresh _ _ _ HA).
    + by apply (blk_fresh _ _ _ HL).
  - intros a b [Ha|Ha]%elem_of_app Hab.
    + apply HL. by apply (blk_closed _ _ _ HA a).
    + by apply (blk_closed _ _ _ HL a).
  - intros i j k a b w Hi Hj Hk Hab Hij Hk'.
    apply lookup_app_Some in Hi as [Hi|[Hi1 Hi2]];
      apply lookup_app_Some in Hj as [Hj|[Hj1 Hj2]].
    + apply lookup_app_Some in Hk as [Hk|[Hk1 Hk2]].
      * by apply (blk_back _ _ _ HA i j k a b w).
      * apply lookup_lt_Some in Hj. lia.
    + exfalso. apply (marked_not_fresh pol fl1 b).
      * apply (blk_closed _ _ _ HA a b); [|done].
        by apply list_elem_of_lookup_2 in Hi.
      * apply (blk_fresh _ _ _ HL). by apply list_elem_of_lookup_2 in Hj2.
    + apply lookup_lt_Some in Hj. lia.
    + apply lookup_app_Some in Hk as [Hk|[Hk1 Hk2]].
      * apply lookup_lt_Some in Hk. lia.
      * apply (blk_back _ _ _ HL (i - length A)%nat (j - length A)%nat
                 (k - length A)%nat a b w); auto; lia.
  - etrans; [apply HL|apply HA].
Qed.

(** The block of one [dfs] call: the blocks of the neighbours, then the
    node itself. *)
Lemma block_root fl x A fl' :
  fresh pol fl x →
  block (mark pol x fl) A fl' →
  (∀ y, y ∈ A → reach x y) →
  (∀ b, edges x b → marked pol fl' b) →
  block fl (A ++ [x]) fl'.
Proof.
  intros Hx HA Hreach Hnb.
  pose proof (flip_at_range _ _ _ Hx) as Hr.
  assert (Hmx : marked pol (mark pol x fl) x) by (apply mark_marked; eauto).
  split.
  - rewrite (blk_len _ _ _ HA). apply length_mark.
  - intros y Hy. apply HA. unfold marked.
    rewrite flip_at_mark_ne; [done|lia|].
    intros <-. by apply (marked_not_fresh pol fl x).
  - intros y Hy. rewrite elem_of_app, list_elem_of_singleton.
    destruct (blk_new _ _ _ HA y Hy) as [H1|H1]; [|by auto].
    destruct (decide (y = x)) as [->|Hne]; [by auto|].
    left. unfold marked in *. rewrite flip_at_mark_ne in H1; [done|lia|done].
  - intros y [Hy|Hy]%elem_of_app.
    + destruct (blk_fresh _ _ _ HA y Hy) as [Hf Hm]. split; [|done].
      unfold fresh in *. rewrite flip_at_mark_ne in Hf; [done|lia|].
      intros <-. by apply (marked_not_fresh pol (mark pol x fl) x).
    + apply list_elem_of_singleton in Hy as ->. split; [done|]. by apply HA.
  - apply NoDup_app. split; [apply HA|]. split; [|apply NoDup_singleton].
    intros y Hy ->%list_elem_of_singleton.
    apply (marked_not_fresh pol (mark pol x fl) x); [done|].
    by apply (blk_fresh _ _ _ HA).
  - intros a b [Ha|Ha]%elem_of_app Hab.
    + by apply (blk_closed _ _ _ HA a).
    + apply list_elem_of_singleton in Ha as ->. by apply Hnb.
  - intros i j k a b w Hi Hj Hk Hab Hij Hk'.
    assert (Hw : reach x w).
    { apply lookup_app_Some in Hk as [Hk|[_ Hk]].
      - apply Hreach. by apply list_elem_of_lookup_2 in Hk.
      - apply list_lookup_singleton_Some in Hk as [_ <-]. apply rtc_refl. }
    apply lookup_app_Some in Hj as [Hj|[Hj1 Hj2]].
    + pose proof (lookup_lt_Some _ _ _ Hj) as Hjl.
      rewrite lookup_app_l in Hi by lia. rewrite lookup_app_l in Hk by lia.
      by apply (blk_back _ _ _ HA i j k a b w).
    + apply list_lookup_singleton_Some in Hj2 as [_ <-]. done.
  - pose proof (blk_count _ _ _ HA). pose proof (nfresh_mark pol fl x Hx). lia.
Qed.

End Blocks.

(** ** What one search does *)

(** The map [d.graph] points to. *)
Definition emap (s : state) : gmap Z (gset Z) :=
  deref (mem s) (graph (self s)).

Section Search.

Variable range_order : nat → gset Z → list Z.
Hypothesis range_perm : ∀ t s, range_order t s ≡ₚ elements s.
Variable pol : bool.

(** From [s] the code reached [s'], appending the block [L] to [d.order]
    and leaving the graph and [d.graph] alone. *)
Definition appended (s : state) (L : list Z) (s' : state) : Prop :=
  mem s' = mem s ∧ graph (self s') = graph (self s) ∧
  order (self s') = order (self s) ++ L ∧
  block (emap s) pol (flip (self s)) L (flip (self s')).

Definition in_flip (s : state) (x : Z) : Prop :=
  0 ≤ x < Z.of_nat (length (flip (self s))).

Definition dfs_ok (fuel : nat) : Prop :=
  ∀ x s,
    marked pol (flip (self s)) x →
    (nfresh pol (flip (self s)) < fuel)%nat →
    match dfs range_order pol fuel x s with
    | OutOfFuel => False
    | Panics => ¬ closed (emap s) (length (flip (self s)))
    | Done s' =>
        ∃ A, mem s' = mem s ∧ graph (self s') = graph (self s) ∧
             order (self s') = order (self s) ++ A ++ [x] ∧
             block (emap s) pol (flip (self s)) A (flip (self s')) ∧
             (∀ y, y ∈ A → reach (emap s) x y) ∧
             (∀ b, edges (emap s) x b → marked pol (flip (self s')) b)
    end.

Definition visit_ok (fuel : nat) : Prop :=
  ∀ x s,
    (nfresh pol (flip (self s)) ≤ fuel)%nat →
    match visit range_order pol fuel x s with
    | OutOfFuel => False
    | Panics => ¬ in_flip s x ∨ ¬ closed (emap s) (length (flip (self s)))
    | Done s' =>
        ∃ L, appended s L s' ∧ marked pol (flip (self s')) x ∧
             (fresh pol (flip (self s)) x → x ∈ L) ∧
             (marked pol (flip (self s)) x → L = []) ∧
             (∀ y, y ∈ L → reach (emap s) x y)
    end.

Definition loop_ok (fuel : nat) : Prop :=
  ∀ l s,
    (nfresh pol (flip (self s)) ≤ fuel)%nat →
    match for_each (visit range_order pol fuel) l s with
    | OutOfFuel => False
    | Panics => (∃ x, x ∈ l ∧ ¬ in_flip s x)
                ∨ ¬ closed (emap s) (length (flip (self s)))
    | Done s' =>
        ∃ L, appended s L s' ∧
             (∀ x, x ∈ l → marked pol (flip (self s')) x) ∧
             (∀ y, y ∈ L → ∃ x, x ∈ l ∧ reach (emap s) x y)
    end.

Lemma appended_emap s L s' : appended s L s' → emap s' = emap s.
Proof. intros (Hm & Hg & _). unfold emap. by rewrite Hm, Hg. Qed.

Lemma visit_from_dfs fuel : dfs_ok fuel → visit_ok fuel.
Proof.
  intros Hdfs x s Hfuel. unfold visit, saw.
  destruct (flip_at (flip (self s)) x) as [r|] eqn:Hr; simpl.
  2:{ left. intros Hx. apply (flip_at_is_Some _ _) in Hx as [? Hx]. unfold in_flip in *.
      congruence. }
  destruct (decide (r = pol)) as [->|Hne].
  - rewrite eqb_reflx. exists []. split; [|split; [|split; [|split]]].
    + unfold appended, mark. simpl. rewrite app_nil_r.
      replace (<[Z.to_nat x:=pol]> (flip (self s))) with (flip (self s)).
      * split; [done|]. split; [done|]. split; [done|]. apply block_nil.
      * symmetry. apply list_insert_id. unfold flip_at in Hr.
        by case_decide.
    + simpl. apply mark_marked. eauto.
    + intros Hf. destruct (marked_not_fresh pol _ x Hr Hf).
    + done.
    + intros y Hy. by apply not_elem_of_nil in Hy.
  - assert (Hfresh : fresh pol (flip (self s)) x).
    { unfold fresh. rewrite Hr. by destruct r, pol. }
    replace (eqb r pol) with false by (by destruct r, pol).
    set (s1 := set_flip _ s).
    specialize (Hdfs x s1).
    assert (Hm1 : marked pol (flip (self s1)) x) by (apply mark_marked; eauto).
    assert (Hn1 : (nfresh pol (flip (self s1)) < fuel)%nat).
    { pose proof (nfresh_mark pol _ x Hfresh). simpl. unfold mark in *. lia. }
    specialize (Hdfs Hm1 Hn1).
    destruct (dfs range_order pol fuel x s1) as [s'| |]; [| |done].
    + destruct Hdfs as (A & Hmem & Hg & Ho & HA & Hreach & Hnb).
      exists (A ++ [x]). split; [|split; [|split; [|split]]].
      * split; [done|]. split; [done|]. split; [done|].
        by apply block_root.
      * by apply HA.
      * intros _. set_solver.
      * intros Hm. destruct (marked_not_fresh pol _ x Hm Hfresh).
      * intros y [Hy|Hy]%elem_of_app; [by apply Hreach|].
        apply list_elem_of_singleton in Hy as ->. apply rtc_refl.
    + right. simpl in Hdfs. by rewrite length_insert in Hdfs.
Qed.

Lemma loop_from_visit fuel : visit_ok fuel → loop_ok fuel.
Proof.
  intros Hvisit l. induction l as [|x l IH]; intros s Hfuel; simpl.
  - exists []. split; [|split].
    + split; [done|]. split; [done|]. rewrite app_nil_r. split; [done|].
      apply block_nil.
    + intros x Hx. by apply not_elem_of_nil in Hx.
    + intros x Hx. by apply not_elem_of_nil in Hx.
  - specialize (Hvisit x s Hfuel).
    destruct (visit range_order pol fuel x s) as [s1| |]; simpl; [| |done].
    2:{ destruct Hvisit as [Hx|Hc]; [left|by right]. exists x. split; [left|done]. }
    destruct Hvisit as (L1 & Happ1 & Hmx & _ & _ & Hr1).
    pose proof (appended_emap _ _ _ Happ1) as Hemap.
    destruct Happ1 as (Hmem1 & Hg1 & Ho1 & Hb1).
    assert (Hlen : length (flip (self s1)) = length (flip (self s)))
      by apply Hb1.
    assert (Hfuel1 : (nfresh pol (flip (self s1)) ≤ fuel)%nat).
    { pose proof (blk_count _ _ _ _ _ Hb1). lia. }
    specialize (IH s1 Hfuel1).
    destruct (for_each (visit range_order pol fuel) l s1) as [s2| |]; [| |done].
    + destruct IH as (L2 & (Hmem2 & Hg2 & Ho2 & Hb2) & Hm2 & Hr2).
      rewrite Hemap in Hb2, Hr2.
      exists (L1 ++ L2). split; [|split].
      * split; [congruence|]. split; [congruence|].
        split; [by rewrite Ho2, Ho1, app_assoc|].
        by apply (block_app _ _ _ _ _ _ _ Hb1).
      * intros y [->|Hy]%elem_of_cons; [by apply Hb2|by apply Hm2].
      * intros y [Hy|Hy]%elem_of_app.
        -- exists x. split; [left|by apply Hr1].
        -- destruct (Hr2 y Hy) as (z & Hz & Hzy). exists z. split; [by right|done].
    + rewrite Hemap in IH. unfold in_flip in *. rewrite Hlen in IH.
      destruct IH as [(z & Hz & Hzr)|Hc]; [left|by right].
      exists z. split; [by right|done].
Qed.

Lemma dfs_from_loop fuel : loop_ok fuel → dfs_ok (S fuel).
Proof.
  intros Hloop x s Hmx Hfuel. rewrite dfs_unfold.
  specialize (Hloop (range_order (clock s) (neighbors s x)) (tick s)).
  assert (Hf : (nfresh pol (flip (self (tick s))) ≤ fuel)%nat) by (simpl; lia).
  specialize (Hloop Hf).
  assert (Hnb : ∀ b, b ∈ range_order (clock s) (neighbors s x)
                     ↔ edges (emap s) x b).
  { intros b. rewrite range_perm, elem_of_elements. done. }
  destruct (for_each _ _ (tick s)) as [s'| |]; simpl; [| |done].
  - destruct Hloop as (L & (Hmem & Hg & Ho & Hb) & Hm & Hr).
    exists L. split; [done|]. split; [done|].
    split; [by simpl in *; rewrite Ho, app_assoc|].
    split; [done|]. split.
    + intros y Hy. destruct (Hr y Hy) as (z & Hz & Hzy).
      eapply rtc_l; [|done]. by apply Hnb.
    + intros b Hbx. apply Hm. by apply Hnb.
  - destruct Hloop as [(z & Hz & Hzr)|Hc]; [|done].
    intros Hclosed. apply Hzr.
    apply (Hclosed x z); [|by apply Hnb].
    by apply flip_at_range in Hmx.
Qed.

Lemma dfs_ok_all fuel : dfs_ok fuel.
Proof.
  induction fuel as [|fuel IH].
  - intros x s _ Hf. lia.
  - by apply dfs_from_loop, loop_from_visit, visit_from_dfs.
Qed.

Lemma visit_ok_all fuel : visit_ok fuel.
Proof. apply visit_from_dfs, dfs_ok_all. Qed.

Lemma loop_ok_all fuel : loop_ok fuel.
Proof. apply loop_from_visit, visit_ok_all. Qed.

End Search.

(** ** [StrongComponents] as two runs of the search *)

Definition start (g : Graph) : state :=
  {| mem := g;
     self := {| graph := ref_out; order := [];
                flip := replicate (size (out g)) false |};
     clock := O |}.

Lemma extract_visit ord fuel x s cs :
  extract ord fuel x (s, cs) =
  s' ← visit ord false fuel x s;
  Done (if decide (flip_at (flip (self s)) x = Some false) then (s', cs)
        else (set_order [] s', cs ++ [order (self s')])).
Proof.
  unfold extract, visit. rewrite sawFalse_saw. unfold saw.
  destruct (flip_at (flip (self s)) x) as [[]|]; simpl; try done.
Qed.

Lemma StrongComponents_unfold ord g :
  StrongComponents ord g =
  s ← for_each (visit ord true (S (size (out g))))
        (ord O (dom (out g))) (tick (start g));
  '(s, components) ← for_each (extract ord (S (size (out g))))
        (rev (order (self s))) (set_graph ref_in (set_order [] s), []);
  Done (mem s, components).
Proof.
  unfold StrongComponents, range. fold (start g). cbv beta iota zeta.
  rewrite (for_each_ext _ (visit ord true (S (size (out g))))); [done|].
  intros x s. unfold visit. rewrite sawTrue_saw.
  destruct (saw true x s) as [[[] ?]| |]; [done| |done|done].
  apply dfs1_dfs.
Qed.

(** ** The graph is only read *)

Lemma for_each_inv {S : Type} (P : S → Prop) (body : Z → S → outcome S) l s s' :
  (∀ x s s', P s → body x s = Done s' → P s') →
  P s → for_each body l s = Done s' → P s'.
Proof.
  intros Hbody. revert s. induction l as [|x l IH]; intros s Hs Heq; simpl in Heq.
  - by injection Heq as <-.
  - destruct (body x s) as [s1| |] eqn:Hx; simpl in Heq; try done.
    apply (IH s1); [|done]. by apply (Hbody x s).
Qed.

Lemma visit_mem ord pol fuel x s s' :
  (∀ x s s', dfs ord pol fuel x s = Done s' → mem s' = mem s) →
  visit ord pol fuel x s = Done s' → mem s' = mem s.
Proof.
  intros Hdfs. unfold visit, saw.
  destruct (flip_at (flip (self s)) x) as [r|]; simpl; [|done].
  destruct (eqb r pol).
  - by intros [= <-].
  - intros Heq. by apply Hdfs in Heq.
Qed.

Lemma dfs_mem ord pol fuel x s s' :
  dfs ord pol fuel x s = Done s' → mem s' = mem s.
Proof.
  revert x s s'. induction fuel as [|fuel IH]; intros x s s'; [done|].
  rewrite dfs_unfold.
  destruct (for_each _ _ (tick s)) as [s1| |] eqn:Hloop; simpl; try done.
  intros [= <-]. simpl.
  apply (for_each_inv (λ s0, mem s0 = mem s)) in Hloop; [done| |done].
  intros y s0 s0' Hs0 Hv. rewrite <- Hs0. by apply (visit_mem ord pol fuel y).
Qed.

Lemma extract_mem ord fuel x s cs s' cs' :
  extract ord fuel x (s, cs) = Done (s', cs') → mem s' = mem s.
Proof.
  rewrite extract_visit.
  destruct (visit ord false fuel x s) as [s1| |] eqn:Hv; simpl; try done.
  apply (visit_mem ord false fuel x) in Hv; [|apply dfs_mem].
  case_decide; intros [= <- _]; done.
Qed.

Lemma StrongComponents_mem ord g g' cs :
  StrongComponents ord g = Done (g', cs) → g' = g.
Proof.
  rewrite StrongComponents_unfold.
  destruct (for_each _ _ (tick (start g))) as [s1| |] eqn:H1; simpl; try done.
  apply (for_each_inv (λ s0, mem s0 = g)) in H1; [| |done].
  2:{ intros y s0 s0' Hs0 Hv. rewrite <- Hs0.
      eapply visit_mem; [apply dfs_mem|exact Hv]. }
  destruct (for_each _ _ (set_graph _ _, [])) as [[s2 cs2]| |] eqn:H2;
    simpl; try done.
  intros [= <- <-].
  apply (for_each_inv (λ sc, mem (fst sc) = g)) in H2; [done| |done].
  intros y [s0 cs0] [s0' cs0'] Hs0 Hv. simpl in Hs0 |- *. rewrite <- Hs0.
  eapply extract_mem. exact Hv.
Qed.

(** ** Paths in the graph and in its mirror image *)

Definition mirror (g : Graph) : Prop :=
  ∀ src dst, edges (out g) src dst ↔ edges (in_ g) dst src.

Lemma reach_reverse (m m' : gmap Z (gset Z)) :
  (∀ a b, edges m a b → edges m' b a) →
  ∀ a b, reach m a b → reach m' b a.
Proof.
  intros Hrev a b Hab. induction Hab as [|a c b Hac _ IH]; [apply rtc_refl|].
  eapply rtc_r; [exact IH|]. by apply Hrev.
Qed.

Lemma reach_mirror g a b :
  mirror g → reach (in_ g) a b ↔ reach (out g) b a.
Proof.
  intros Hm. split; apply reach_reverse; intros x y Hxy; by apply Hm.
Qed.

Lemma replicate_unmarked pol n x : ¬ marked pol (replicate n (negb pol)) x.
Proof.
  unfold marked, flip_at. case_decide; [|done].
  intros [Heq _]%lookup_replicate. by destruct pol.
Qed.

(** ** The order of the first pass

    When a block starts from markers none of which is set, the block holds
    every node that ends up marked, it is closed under the edges, and each
    node that reaches [b] has a companion [z], reaching it and reached from
    it, that sits at or after both of them. *)

Section FinishOrder.

Variable m : gmap Z (gset Z).
Variable pol : bool.
Variables (fl0 fl : list bool) (O : list Z).
Hypothesis fl0_clear : ∀ x, ¬ marked pol fl0 x.
Hypothesis O_block : block m pol fl0 O fl.

Lemma order_marked x : marked pol fl x ↔ x ∈ O.
Proof.
  split.
  - intros Hx. destruct (blk_new _ _ _ _ _ O_block x Hx) as [H0|]; [|done].
    by destruct (fl0_clear x).
  - intros Hx. by apply (blk_fresh _ _ _ _ _ O_block).
Qed.

Lemma order_closed a b : a ∈ O → edges m a b → b ∈ O.
Proof.
  intros Ha Hab. apply order_marked. by apply (blk_closed _ _ _ _ _ O_block a).
Qed.

Lemma order_reach a b : a ∈ O → reach m a b → b ∈ O.
Proof.
  intros Ha Hab. induction Hab as [|a c b Hac _ IH]; [done|].
  apply IH. by apply (order_closed a).
Qed.

Lemma order_index i j x : O !! i = Some x → O !! j = Some x → i = j.
Proof. apply NoDup_lookup, O_block. Qed.

Lemma order_canon a b i :
  reach m a b → O !! i = Some a →
  ∃ z k, O !! k = Some z ∧ reach m z a ∧ reach m a z ∧ (i ≤ k)%nat ∧
         ∀ j, O !! j = Some b → (j ≤ k)%nat.
Proof.
  intros Hab Hi. revert b Hab.
  apply (rtc_ind_r (λ b, ∃ z k, O !! k = Some z ∧ reach m z a ∧
                         reach m a z ∧ (i ≤ k)%nat ∧
                         ∀ j, O !! j = Some b → (j ≤ k)%nat)).
  - exists a, i. repeat split; try apply rtc_refl; auto.
    intros j Hj. by rewrite (order_index _ _ _ Hj Hi).
  - intros c b Hac Hcb (z & k & Hk & Hza & Haz & Hik & Hc).
    assert (Hb : b ∈ O).
    { apply (order_reach a); [by apply list_elem_of_lookup_2 in Hi|].
      eapply rtc_r; [exact Hac|exact Hcb]. }
    assert (Hc' : c ∈ O).
    { apply (order_reach a); [by apply list_elem_of_lookup_2 in Hi|done]. }
    apply list_elem_of_lookup_1 in Hb as [jb Hjb].
    apply list_elem_of_lookup_1 in Hc' as [jc Hjc].
    destruct (decide (jb ≤ k)%nat) as [Hle|Hgt].
    + exists z, k. repeat split; auto.
      intros j Hj. by rewrite (order_index _ _ _ Hj Hjb).
    + assert (Hbz : reach m b z).
      { apply (blk_back _ _ _ _ _ O_block jc jb k c b z); auto.
        - specialize (Hc jc Hjc). lia.
        - specialize (Hc jc Hjc). lia. }
      exists b, jb. repeat split; auto.
      * by etrans.
      * eapply rtc_r; [exact Hac|exact Hcb].
      * lia.
      * intros j Hj. by rewrite (order_index _ _ _ Hj Hjb).
Qed.

End FinishOrder.

(** ** The two loops of [StrongComponents] *)

Lemma elem_of_rev (x : Z) l : x ∈ rev l ↔ x ∈ l.
Proof. rewrite !list_elem_of_In. symmetry. apply in_rev. Qed.

Section Components.

Variable ord : nat → gset Z → list Z.
Hypothesis ord_perm : ∀ t s, ord t s ≡ₚ elements s.
Variable g : Graph.

Local Abbreviation n := (size (out g)).

Lemma pass1_ok :
  match for_each (visit ord true (S n)) (ord O (dom (out g)))
          (tick (start g)) with
  | OutOfFuel => False
  | Panics => (∃ k, k ∈ dom (out g) ∧ ¬ 0 ≤ k < Z.of_nat n)
              ∨ ¬ closed (out g) n
  | Done s1 =>
      mem s1 = g ∧ graph (self s1) = ref_out ∧
      block (out g) true (replicate n false) (order (self s1))
        (flip (self s1)) ∧
      ∀ k, k ∈ dom (out g) → marked true (flip (self s1)) k
  end.
Proof.
  pose proof (loop_ok_all ord ord_perm true (S n) (ord O (dom (out g)))
                (tick (start g))) as H.
  assert (Hf : (nfresh true (flip (self (tick (start g)))) ≤ S n)%nat).
  { simpl. rewrite (nfresh_replicate true). lia. }
  specialize (H Hf).
  destruct (for_each _ _ _) as [s1| |]; [| |done].
  - destruct H as (L & (Hm & Hg & Ho & Hb) & Hk & _). simpl in *.
    subst L. split; [done|]. split; [done|]. split; [done|].
    intros k Hk'. apply Hk. rewrite ord_perm. by apply elem_of_elements.
  - unfold in_flip in H. simpl in H. rewrite length_replicate in H.
    destruct H as [(k & Hk & Hr)|Hc]; [left|by right].
    exists k. split; [|done]. rewrite ord_perm in Hk. by apply elem_of_elements in Hk.
Qed.

(** The state between the loops: [O] is the order of the first pass and
    [fl1] its markers, all set. *)
Variables (O : list Z) (fl1 : list bool).
Hypothesis O_block : block (out g) true (replicate n false) O fl1.
Hypothesis fl1_full : ∀ x, ¬ marked false fl1 x.

(** What holds before each round of the second loop: [done] are the
    nodes of [O] it has been through, [cs] the components so far. *)
Record inv2 (done : list Z) (s : state) (cs : list (list Z)) : Prop := {
  i_mem : mem s = g;
  i_graph : graph (self s) = ref_in;
  i_order : order (self s) = [];
  i_block : block (in_ g) false fl1 (concat cs) (flip (self s));
  i_done : ∀ x, x ∈ done → marked false (flip (self s)) x;
  i_pred : ∀ j c b a, cs !! j = Some c → b ∈ c → edges (in_ g) b a →
                      a ∈ concat (take (S j) cs);
  i_scc : mirror g → ∀ c u v, c ∈ cs → u ∈ c → v ∈ c → reach (out g) u v;
  i_nonempty : ∀ c, c ∈ cs → c ≠ []
}.

Lemma O_unmarked x : ¬ marked true (replicate n false) x.
Proof. apply (replicate_unmarked true). Qed.

Lemma fresh2_in_O done s cs y :
  inv2 done s cs → fresh false (flip (self s)) y → y ∈ O.
Proof.
  intros Hinv Hy.
  apply (order_marked (out g) true _ _ _ O_unmarked O_block).
  pose proof (flip_at_range _ _ _ Hy) as Hr.
  rewrite (blk_len _ _ _ _ _ (i_block _ _ _ Hinv)) in Hr.
  destruct (marked_or_fresh true fl1 y Hr) as [|Hf]; [done|].
  destruct (marked_not_fresh false (flip (self s)) y); [|done].
  by apply (blk_keep _ _ _ _ _ (i_block _ _ _ Hinv)).
Qed.

(** The root of a round is the last node of [O] still to extract, so
    whatever fresh node reaches it is reached from it. *)
Lemma component_sound done x l s cs y :
  rev O = done ++ x :: l → inv2 done s cs → mirror g →
  fresh false (flip (self s)) y →
  reach (out g) y x → reach (out g) x y.
Proof.
  intros HO Hinv Hmir Hy Hyx.
  assert (HO' : O = rev l ++ x :: rev done).
  { rewrite <- (rev_involutive O), HO, rev_app_distr. simpl.
    by rewrite <- app_assoc. }
  pose proof (fresh2_in_O _ _ _ _ Hinv Hy) as HyO.
  apply list_elem_of_lookup_1 in HyO as [iy Hiy].
  destruct (order_canon (out g) true _ _ _ O_unmarked O_block y x iy Hyx Hiy)
    as (z & k & Hk & Hzy & Hyz & _ & Hx).
  assert (Hix : O !! length l = Some x).
  { rewrite HO'. rewrite lookup_app_r by (rewrite length_rev; lia).
    by rewrite length_rev, Nat.sub_diag. }
  specialize (Hx _ Hix).
  assert (Hzf : fresh false (flip (self s)) z).
  { assert (Hzr : 0 ≤ z < Z.of_nat (length (flip (self s)))).
    { rewrite (blk_len _ _ _ _ _ (i_block _ _ _ Hinv)).
      rewrite (blk_len _ _ _ _ _ O_block).
      apply list_elem_of_lookup_2 in Hk.
      apply (blk_fresh _ _ _ _ _ O_block) in Hk as [Hk _].
      by apply flip_at_range in Hk. }
    destruct (marked_or_fresh false _ z Hzr) as [Hzm|]; [|done].
    exfalso. apply (marked_not_fresh false (flip (self s)) y); [|done].
    apply (order_marked (in_ g) false _ _ _ fl1_full (i_block _ _ _ Hinv)).
    apply (order_reach (in_ g) false _ _ _ fl1_full (i_block _ _ _ Hinv) z).
    - by apply (order_marked (in_ g) false _ _ _ fl1_full (i_block _ _ _ Hinv)).
    - by apply reach_mirror. }
  assert (Hzl : z ∈ rev l ++ [x]).
  { assert (Hz : z ∈ rev O) by (apply elem_of_rev; by apply list_elem_of_lookup_2 in Hk).
    rewrite HO in Hz. apply elem_of_app in Hz as [Hz|Hz].
    - destruct (marked_not_fresh false (flip (self s)) z); [|done].
      by apply (i_done _ _ _ Hinv).
    - apply elem_of_cons in Hz as [->|Hz]; [set_solver|].
      apply elem_of_app. left. by apply elem_of_rev. }
  apply list_elem_of_lookup_1 in Hzl as [k' Hk'].
  pose proof (lookup_lt_Some _ _ _ Hk') as Hlt.
  rewrite length_app, length_rev in Hlt. simpl in Hlt.
  assert (Hk'' : O !! k' = Some z).
  { rewrite HO'. rewrite (cons_middle x), app_assoc.
    by apply lookup_app_l_Some. }
  assert (k' = k) by (eapply NoDup_lookup; [apply O_block|done|done]).
  assert (k = length l) by lia. subst.
  rewrite Hix in Hk. by injection Hk as ->.
Qed.

Lemma inv2_length done s cs : inv2 done s cs → length (flip (self s)) = n.
Proof.
  intros Hinv. rewrite (blk_len _ _ _ _ _ (i_block _ _ _ Hinv)).
  rewrite (blk_len _ _ _ _ _ O_block). apply length_replicate.
Qed.

Lemma inv2_emap done s cs : inv2 done s cs → emap s = in_ g.
Proof.
  intros Hinv. unfold emap.
  by rewrite (i_mem _ _ _ Hinv), (i_graph _ _ _ Hinv).
Qed.

Lemma O_in_range x : x ∈ O → 0 ≤ x < Z.of_nat n.
Proof.
  intros Hx. apply (blk_fresh _ _ _ _ _ O_block) in Hx as [Hx _].
  apply flip_at_range in Hx. by rewrite length_replicate in Hx.
Qed.

Lemma inv2_skip done s cs x s1 :
  inv2 done s cs → appended false s [] s1 →
  marked false (flip (self s1)) x →
  inv2 (done ++ [x]) s1 cs.
Proof.
  intros Hinv (Hm & Hg & Ho & Hb) Hx.
  rewrite (inv2_emap _ _ _ Hinv) in Hb.
  pose proof (block_app _ _ _ _ _ _ _ (i_block _ _ _ Hinv) Hb) as Hb'.
  rewrite app_nil_r in Hb'.
  split.
  - rewrite Hm. apply Hinv.
  - rewrite Hg. apply Hinv.
  - rewrite Ho, app_nil_r. apply Hinv.
  - done.
  - intros y [Hy|Hy]%elem_of_app.
    + apply Hb. by apply (i_done _ _ _ Hinv).
    + by apply list_elem_of_singleton in Hy as ->.
  - apply Hinv.
  - apply Hinv.
  - apply Hinv.
Qed.

Lemma inv2_emit done x l s cs L s1 :
  rev O = done ++ x :: l →
  inv2 done s cs → appended false s L s1 →
  marked false (flip (self s1)) x → x ∈ L →
  (∀ y, y ∈ L → reach (in_ g) x y) →
  inv2 (done ++ [x]) (set_order [] s1) (cs ++ [order (self s1)]).
Proof.
  intros HO Hinv (Hm & Hg & Ho & Hb) Hx HxL Hreach.
  rewrite (inv2_emap _ _ _ Hinv) in Hb.
  rewrite (i_order _ _ _ Hinv) in Ho. simpl in Ho. rewrite Ho.
  pose proof (block_app _ _ _ _ _ _ _ (i_block _ _ _ Hinv) Hb) as Hb'.
  assert (Hcat : concat (cs ++ [L]) = concat cs ++ L).
  { rewrite concat_app. simpl. by rewrite app_nil_r. }
  split.
  - simpl. rewrite Hm. apply Hinv.
  - simpl. rewrite Hg. apply Hinv.
  - done.
  - simpl. by rewrite Hcat.
  - simpl. intros y [Hy|Hy]%elem_of_app.
    + apply Hb. by apply (i_done _ _ _ Hinv).
    + by apply list_elem_of_singleton in Hy as ->.
  - intros j c b a Hj Hbc Hba.
    apply lookup_app_Some in Hj as [Hj|[Hj1 Hj2]].
    + pose proof (lookup_lt_Some _ _ _ Hj).
      rewrite take_app_le by lia. by apply (i_pred _ _ _ Hinv j c b a).
    + apply list_lookup_singleton_Some in Hj2 as [Hj2 <-].
      rewrite take_ge by (rewrite length_app; simpl; lia).
      rewrite Hcat.
      apply (order_marked (in_ g) false _ _ _ fl1_full Hb').
      by apply (blk_closed _ _ _ _ _ Hb b).
  - intros Hmir c u v [Hc|Hc]%elem_of_app Hu Hv.
    + by apply (i_scc _ _ _ Hinv Hmir c).
    + apply list_elem_of_singleton in Hc as ->.
      assert (Hboth : ∀ y, y ∈ L → reach (out g) y x ∧ reach (out g) x y).
      { intros y Hy.
        assert (Hyx : reach (out g) y x) by (by apply reach_mirror, Hreach).
        split; [done|].
        apply (component_sound done x l s cs y); auto.
        by apply (blk_fresh _ _ _ _ _ Hb). }
      etrans; [apply (Hboth u Hu)|apply (Hboth v Hv)].
  - intros c [Hc|Hc]%elem_of_app.
    + by apply (i_nonempty _ _ _ Hinv).
    + apply list_elem_of_singleton in Hc as ->. intros ->.
      by apply not_elem_of_nil in HxL.
Qed.

Lemma pass2_ok l : ∀ done s cs,
  rev O = done ++ l → inv2 done s cs →
  match for_each (extract ord (S n)) l (s, cs) with
  | OutOfFuel => False
  | Panics => ¬ closed (in_ g) n
  | Done (s', cs') => inv2 (done ++ l) s' cs'
  end.
Proof.
  induction l as [|x l IH]; intros done s cs HO Hinv.
  - simpl. by rewrite app_nil_r.
  - pose proof (inv2_length _ _ _ Hinv) as Hlen.
    pose proof (inv2_emap _ _ _ Hinv) as Hemap.
    assert (Hfuel : (nfresh false (flip (self s)) ≤ S n)%nat).
    { pose proof (nfresh_length false (flip (self s))). lia. }
    pose proof (visit_ok_all ord ord_perm false (S n) x s Hfuel) as Hv.
    cbn [for_each]. rewrite extract_visit.
    destruct (visit ord false (S n) x s) as [s1| |]; cbn; [| |done].
    2:{ rewrite Hemap, Hlen in Hv. destruct Hv as [Hx|Hc]; [|done].
        destruct Hx. unfold in_flip. rewrite Hlen. apply O_in_range.
        apply elem_of_rev. rewrite HO. set_solver. }
    destruct Hv as (L & Happ & Hmx & HxL & HLnil & Hreach).
    rewrite Hemap in Hreach.
    specialize (IH (done ++ [x])). rewrite <- app_assoc in IH. simpl in IH.
    case_decide as Hdec.
    + apply IH; [done|]. specialize (HLnil Hdec). subst L.
      by apply (inv2_skip done s).
    + apply IH; [done|].
      assert (Hfresh : fresh false (flip (self s)) x).
      { destruct (marked_or_fresh false (flip (self s)) x); [|done|done].
        rewrite Hlen. apply O_in_range.
        apply elem_of_rev. rewrite HO. set_solver. }
      apply (inv2_emit done x l s cs L); auto.
Qed.

End Components.

(** ** Graphs whose nodes are [0 .. n-1] *)

(** Every key of [out] indexes into a marker slice of length [len(out)]. *)
Definition dense (g : Graph) : Prop :=
  ∀ k, k ∈ dom (out g) → 0 ≤ k < Z.of_nat (size (out g)).

Lemma dense_all g x :
  dense g → 0 ≤ x < Z.of_nat (size (out g)) → x ∈ dom (out g).
Proof.
  intros Hd Hx.
  set (S := list_to_set (seqZ 0 (Z.of_nat (size (out g)))) : gset Z).
  assert (Heq : dom (out g) = S).
  { apply set_subseteq_size_eq.
    - intros k Hk. apply elem_of_list_to_set, elem_of_seqZ.
      specialize (Hd k Hk). lia.
    - unfold S. rewrite size_list_to_set by apply NoDup_seqZ.
      rewrite length_seqZ, size_dom. lia. }
  rewrite Heq. apply elem_of_list_to_set, elem_of_seqZ. lia.
Qed.

(** ** What [StrongComponents] returns *)

Section Result.

Variable ord : nat → gset Z → list Z.
Hypothesis ord_perm : ∀ t s, ord t s ≡ₚ elements s.

(** [a] has a place in [cs] no later than [j]. *)
Definition upto (cs : list (list Z)) (j : nat) (a : Z) : Prop :=
  a ∈ concat (take (S j) cs).

Record components_of (g : Graph) (cs : list (list Z)) : Prop := {
  co_dense : dense g;
  co_closed_out : closed (out g) (size (out g));
  co_closed_in : closed (in_ g) (size (out g));
  co_perm : concat cs ≡ₚ elements (dom (out g));
  co_nonempty : ∀ c, c ∈ cs → c ≠ [];
  co_pred : ∀ j c b a, cs !! j = Some c → b ∈ c → edges (in_ g) b a →
                       upto cs j a;
  co_scc : mirror g → ∀ c u v, c ∈ cs → u ∈ c → v ∈ c → reach (out g) u v
}.

Lemma StrongComponents_spec g :
  match StrongComponents ord g with
  | OutOfFuel => False
  | Panics => ¬ dense g ∨ ¬ closed (out g) (size (out g))
              ∨ ¬ closed (in_ g) (size (out g))
  | Done (g', cs) => g' = g ∧ components_of g cs
  end.
Proof.
  rewrite StrongComponents_unfold.
  pose proof (pass1_ok ord ord_perm g) as H1.
  destruct (for_each _ _ (tick (start g))) as [s1| |]; cbn; [| |done].
  2:{ destruct H1 as [(k & Hk & Hr)|Hc]; [left|by right; left].
      intros Hd. by apply Hr, Hd. }
  destruct H1 as (Hm1 & Hg1 & Hb1 & Hkeys).
  assert (Hdense : dense g).
  { intros k Hk. specialize (Hkeys k Hk). apply flip_at_range in Hkeys.
    by rewrite (blk_len _ _ _ _ _ Hb1), length_replicate in Hkeys. }
  assert (Hfull : ∀ x, ¬ marked false (flip (self s1)) x).
  { intros x Hx. pose proof (flip_at_range _ _ _ Hx) as Hr.
    rewrite (blk_len _ _ _ _ _ Hb1), length_replicate in Hr.
    specialize (Hkeys x (dense_all g x Hdense Hr)).
    unfold marked in *. congruence. }
  set (s2 := set_graph ref_in (set_order [] s1)).
  assert (Hinv : inv2 g (flip (self s1)) [] s2 []).
  { split; try done.
    - apply block_nil.
    - intros x Hx. by apply not_elem_of_nil in Hx.
    - intros _ c u v Hc. by apply not_elem_of_nil in Hc.
    - intros c Hc. by apply not_elem_of_nil in Hc. }
  pose proof (pass2_ok ord ord_perm g (order (self s1)) (flip (self s1))
                Hb1 Hfull (rev (order (self s1))) [] s2 [] eq_refl Hinv) as H2.
  fold s2. destruct (for_each _ _ (s2, [])) as [[s3 cs]| |]; cbn; [| |done].
  2:{ by right; right. }
  simpl in H2. split; [apply H2|].
  pose proof (i_block _ _ _ _ _ H2) as Hb2.
  assert (Hlen : ∀ fl x, length fl = size (out g) →
                   marked true fl x ∨ marked false fl x →
                   0 ≤ x < Z.of_nat (size (out g))).
  { intros fl x <- [Hx|Hx]; by apply flip_at_range in Hx. }
  assert (Hlen1 : length (flip (self s1)) = size (out g)).
  { by rewrite (blk_len _ _ _ _ _ Hb1), length_replicate. }
  assert (Hall : ∀ x, 0 ≤ x < Z.of_nat (size (out g)) →
                      x ∈ order (self s1)).
  { intros x Hx.
    apply (order_marked (out g) true _ _ _ (replicate_unmarked true _) Hb1).
    by apply Hkeys, dense_all. }
  split.
  - done.
  - intros a b Ha Hab. apply (Hlen (flip (self s1))); [done|]. left.
    apply (blk_closed _ _ _ _ _ Hb1 a b); [by apply Hall|done].
  - intros a b Ha Hab. apply (Hlen (flip (self s3))).
    { by rewrite (blk_len _ _ _ _ _ Hb2). }
    right. apply (blk_closed _ _ _ _ _ Hb2 a b); [|done].
    apply (order_marked (in_ g) false _ _ _ Hfull Hb2).
    apply (i_done _ _ _ _ _ H2), elem_of_rev. by apply Hall.
  - apply NoDup_Permutation; [apply Hb2|apply NoDup_elements|].
    intros x. rewrite elem_of_elements. split.
    + intros Hx. apply (blk_fresh _ _ _ _ _ Hb2) in Hx as [Hx _].
      apply flip_at_range in Hx.
      rewrite (blk_len _ _ _ _ _ Hb1), length_replicate in Hx.
      by apply dense_all.
    + intros Hx.
      apply (order_marked (in_ g) false _ _ _ Hfull Hb2).
      apply (i_done _ _ _ _ _ H2). apply elem_of_rev.
      apply (order_marked (out g) true _ _ _
               (replicate_unmarked true _) Hb1).
      by apply Hkeys.
  - apply H2.
  - apply H2.
  - apply H2.
Qed.

End Result.

(** ** Iteration orders and well-formed graphs *)

(** A [range] statement visits every key once. *)
Definition visits_all (ord : nat → gset Z → list Z) : Prop :=
  ∀ t s, ord t s ≡ₚ elements s.

Lemma ascending_visits_all : visits_all ascending.
Proof. intros t s. apply merge_sort_Permutation. Defined.

Lemma descending_visits_all : visits_all descending.
Proof.
  intros t s. unfold descending. rewrite rev_alt.
  etrans; [apply reverse_Permutation|apply merge_sort_Permutation].
Defined.

Example ascending_012 : ascending O {[2; 0; 1]} = [0; 1; 2].
Proof. vm_compute. reflexivity. Qed.

Example descending_012 : descending O {[2; 0; 1]} = [2; 1; 0].
Proof. vm_compute. reflexivity. Qed.

(** The graphs of the data model: the two maps have the same keys and
    mirror each other, and the nodes are [0 .. n-1]. *)
Definition well_formed (g : Graph) : Prop :=
  dom (in_ g) = dom (out g) ∧ mirror g ∧ dense g.

Lemma edges_dom m a b : edges m a b → a ∈ dom m.
Proof.
  unfold edges. intros H. apply elem_of_dom.
  destruct (m !! a); [done|]. by apply not_elem_of_empty in H.
Qed.

Lemma well_formed_closed_out g :
  well_formed g → closed (out g) (size (out g)).
Proof.
  intros (Hdom & Hmir & Hd) a b _ Hab. apply Hd. rewrite <- Hdom.
  apply (edges_dom _ b a). by apply Hmir.
Qed.

Lemma well_formed_closed_in g :
  well_formed g → closed (in_ g) (size (out g)).
Proof.
  intros (Hdom & Hmir & Hd) a b _ Hab. apply Hd.
  apply (edges_dom _ b a). by apply Hmir.
Qed.

Section Consequences.

Variable ord : nat → gset Z → list Z.
Hypothesis ord_ok : visits_all ord.

Lemma StrongComponents_never_out_of_fuel g :
  StrongComponents ord g ≠ OutOfFuel.
Proof.
  pose proof (StrongComponents_spec ord ord_ok g) as H.
  intros Heq. by rewrite Heq in H.
Qed.

Lemma StrongComponents_not_dense g :
  ¬ dense g → StrongComponents ord g = Panics.
Proof.
  intros Hnd. pose proof (StrongComponents_spec ord ord_ok g) as H.
  destruct (StrongComponents ord g) as [[g' cs]| |]; [|done|done].
  destruct H as [_ H]. destruct Hnd. apply H.
Qed.

(** [StrongComponents] returns exactly when the keys of [out] are
    [0 .. n-1] and the neighbours they have in [out] and in [in] are
    too; otherwise it panics. *)
Lemma StrongComponents_returns_iff g :
  (∃ cs, StrongComponents ord g = Done (g, cs)) ↔
  dense g ∧ closed (out g) (size (out g)) ∧ closed (in_ g) (size (out g)).
Proof.
  pose proof (StrongComponents_spec ord ord_ok g) as H. split.
  - intros (cs & Heq). rewrite Heq in H. destruct H as [_ H].
    split; [apply H|]. split; apply H.
  - intros (Hd & Ho & Hi).
    destruct (StrongComponents ord g) as [[g' cs]| |]; [| |done].
    + destruct H as [-> _]. by exists cs.
    + by destruct H as [H|[H|H]].
Qed.

Lemma StrongComponents_well_formed g :
  well_formed g →
  ∃ cs, StrongComponents ord g = Done (g, cs) ∧ components_of g cs.
Proof.
  intros Hwf. pose proof (StrongComponents_spec ord ord_ok g) as H.
  destruct (StrongComponents ord g) as [[g' cs]| |]; [| |done].
  - destruct H as [-> H]. by exists cs.
  - destruct H as [H|[H|H]]; destruct H.
    + apply Hwf.
    + by apply well_formed_closed_out.
    + by apply well_formed_closed_in.
Qed.

End Consequences.

(** ** Places in the list of components *)

Lemma elem_of_concat (x : Z) (ls : list (list Z)) :
  x ∈ concat ls ↔ ∃ l, x ∈ l ∧ l ∈ ls.
Proof.
  rewrite list_elem_of_In, in_concat. split.
  - intros (l & Hl & Hx). exists l. by rewrite !list_elem_of_In.
  - intros (l & Hx & Hl). exists l. by rewrite <- !list_elem_of_In.
Qed.

Lemma upto_elem cs j a :
  upto cs j a ↔ ∃ i c, (i ≤ j)%nat ∧ cs !! i = Some c ∧ a ∈ c.
Proof.
  unfold upto. rewrite elem_of_concat. split.
  - intros (c & Ha & Hc). apply list_elem_of_lookup_1 in Hc as [i Hi].
    apply lookup_take_Some in Hi as [Hi Hlt]. exists i, c. split; [lia|done].
  - intros (i & c & Hij & Hi & Ha). exists c. split; [done|].
    apply (list_elem_of_lookup_2 _ i). apply lookup_take_Some. split; [done|lia].
Qed.

Lemma concat_place (cs : list (list Z)) i k A C a :
  NoDup (concat cs) → cs !! i = Some A → cs !! k = Some C →
  a ∈ A → a ∈ C → i = k.
Proof.
  revert i k. induction cs as [|c cs IH]; intros i k Hnd Hi Hk HA HC; [done|].
  simpl in Hnd. apply NoDup_app in Hnd as (_ & Hdisj & Hnd).
  destruct i as [|i], k as [|k]; simpl in *; simplify_eq; auto.
  - destruct (Hdisj a HA). apply elem_of_concat. exists C.
    split; [done|]. by apply list_elem_of_lookup_2 in Hk.
  - destruct (Hdisj a HC). apply elem_of_concat. exists A.
    split; [done|]. by apply list_elem_of_lookup_2 in Hi.
Qed.

(** ** Strong components of well-formed graphs *)

Definition same_component (cs : list (list Z)) (u v : Z) : Prop :=
  ∃ c, c ∈ cs ∧ u ∈ c ∧ v ∈ c.

Definition mutually_reachable (g : Graph) (u v : Z) : Prop :=
  reach (out g) u v ∧ reach (out g) v u.

(** A component with an edge into another one comes first ... *)
Definition dependents_first (g : Graph) (cs : list (list Z)) : Prop :=
  ∀ i j A B a b,
    cs !! i = Some A → cs !! j = Some B → i ≠ j →
    a ∈ A → b ∈ B → edges (out g) a b → (i < j)%nat.

(** ... or last. *)
Definition depended_first (g : Graph) (cs : list (list Z)) : Prop :=
  ∀ i j A B a b,
    cs !! i = Some A → cs !! j = Some B → i ≠ j →
    a ∈ A → b ∈ B → edges (out g) a b → (j < i)%nat.

Section Ordering.

Variables (g : Graph) (cs : list (list Z)).
Hypothesis Hco : components_of g cs.

Lemma components_NoDup : NoDup (concat cs).
Proof.
  rewrite (co_perm _ _ Hco). apply NoDup_elements.
Qed.

Lemma upto_mono i j a : (i ≤ j)%nat → upto cs i a → upto cs j a.
Proof.
  rewrite !upto_elem. intros Hij (k & c & Hk & Hc & Ha).
  exists k, c. split; [lia|done].
Qed.

(** Whatever reaches a component through [in] edges sits no later. *)
Lemma pred_path j c b a :
  cs !! j = Some c → b ∈ c → reach (in_ g) b a → upto cs j a.
Proof.
  intros Hj Hb Hba. revert j c Hj Hb.
  induction Hba as [b|b b' a Hbb' _ IH]; intros j c Hj Hb.
  - apply upto_elem. by exists j, c.
  - pose proof (co_pred _ _ Hco j c b b' Hj Hb Hbb') as Hup.
    apply upto_elem in Hup as (k & c' & Hk & Hc' & Hb').
    apply (upto_mono k); [done|]. by apply (IH k c').
Qed.

Lemma components_order : mirror g → dependents_first g cs.
Proof.
  intros Hmir i j A B a b Hi Hj Hne Ha Hb Hab.
  pose proof (co_pred _ _ Hco j B b a Hj Hb) as Hup.
  apply upto_elem in Hup as (k & C & Hk & HC & HaC); [|by apply Hmir].
  assert (i = k) by (by apply (concat_place cs i k A C a components_NoDup)).
  lia.
Qed.

Lemma components_scc u v :
  mirror g → u ∈ concat cs → v ∈ concat cs →
  same_component cs u v ↔ mutually_reachable g u v.
Proof.
  intros Hmir Hu Hv. split.
  - intros (c & Hc & Huc & Hvc). split; by apply (co_scc _ _ Hco Hmir c).
  - intros [Huv Hvu].
    apply elem_of_concat in Hu as (A & HuA & HA).
    apply elem_of_concat in Hv as (B & HvB & HB).
    apply list_elem_of_lookup_1 in HA as [i Hi].
    apply list_elem_of_lookup_1 in HB as [j Hj].
    assert (Hij : (i ≤ j)%nat).
    { pose proof (pred_path j B v u Hj HvB) as Hup.
      apply upto_elem in Hup as (k & C & Hk & HC & HuC);
        [|by apply reach_mirror].
      assert (i = k)
        by (by apply (concat_place cs i k A C u components_NoDup)).
      lia. }
    assert (Hji : (j ≤ i)%nat).
    { pose proof (pred_path i A u v Hi HuA) as Hup.
      apply upto_elem in Hup as (k & C & Hk & HC & HvC);
        [|by apply reach_mirror].
      assert (j = k)
        by (by apply (concat_place cs j k B C v components_NoDup)).
      lia. }
    assert (i = j) by lia. subst j. rewrite Hi in Hj. injection Hj as <-.
    exists A. split; [by apply list_elem_of_lookup_2 in Hi|done].
Qed.

End Ordering.

(** ** Checking a concrete graph *)

Definition well_formed_check (g : Graph) : Prop :=
  dom (in_ g) = dom (out g) ∧
  map_Forall (λ s S, set_Forall (λ d, s ∈ default ∅ (in_ g !! d)) S) (out g) ∧
  map_Forall (λ d S, set_Forall (λ s, d ∈ default ∅ (out g !! s)) S) (in_ g) ∧
  set_Forall (λ k, 0 ≤ k < Z.of_nat (size (out g))) (dom (out g)).

Lemma edges_lookup m a b : edges m a b ↔ ∃ S, m !! a = Some S ∧ b ∈ S.
Proof.
  unfold edges. destruct (m !! a) as [S|]; simpl.
  - split; [by exists S|]. by intros (? & [= <-] & ?).
  - split; [by intros ?%not_elem_of_empty|]. by intros (? & ? & ?).
Qed.

Lemma well_formed_check_ok g : well_formed_check g → well_formed g.
Proof.
  intros (Hdom & Ho & Hi & Hd). split; [done|]. split; [|exact Hd].
  intros s d. split.
  - intros (S & HS & Hd')%edges_lookup. exact (Ho s S HS d Hd').
  - intros (S & HS & Hs')%edges_lookup. exact (Hi d S HS s Hs').
Qed.

(** ** What [Remove] touches *)

Lemma scrub_lookup node dsts m d :
  scrub node dsts m !! d =
  if decide (d ∈ dsts) then (λ s, s ∖ {[node]}) <$> m !! d else m !! d.
Proof.
  unfold scrub. revert m. induction dsts as [|x dsts IH]; intros m; simpl.
  - done.
  - rewrite IH. unfold unset. destruct (decide (x = d)) as [->|Hne].
    + rewrite lookup_alter_eq. rewrite (decide_True (P:=d ∈ d :: dsts)) by left.
      case_decide as Hd; [|done]. destruct (m !! d) as [s|]; simpl; [|done].
      f_equal. apply set_eq. intros y.
      rewrite !elem_of_difference. tauto.
    + rewrite lookup_alter_ne by done.
      destruct (decide (d ∈ dsts)) as [Hin|Hnin].
      * rewrite decide_True by (by right). done.
      * rewrite decide_False; [done|]. by intros [->|?]%elem_of_cons.
Qed.

(** The order in which the loop of [Remove] visits [out] does not matter. *)
Lemma scrub_order node dsts dsts' m :
  dsts ≡ₚ dsts' → scrub node dsts m = scrub node dsts' m.
Proof.
  intros Hp. apply map_eq. intros d. rewrite !scrub_lookup.
  destruct (decide (d ∈ dsts)) as [Hin|Hnin].
  - rewrite decide_True; [done|]. by rewrite <- Hp.
  - rewrite decide_False; [done|]. by rewrite <- Hp.
Qed.

Lemma scrub_dom node dsts m : dom (scrub node dsts m) = dom m.
Proof.
  apply set_eq. intros d. rewrite !elem_of_dom, scrub_lookup.
  case_decide; [|done]. by rewrite fmap_is_Some.
Qed.

(** ** What the operations keep

    Half of the mirror invariant survives every operation, and with it
    [Link] never writes to a nil map. *)

Lemma edges_insert m k S a b :
  edges (<[k:=S]> m) a b ↔ (a = k ∧ b ∈ S) ∨ (a ≠ k ∧ edges m a b).
Proof.
  unfold edges. destruct (decide (a = k)) as [->|Hne].
  - rewrite lookup_insert_eq. simpl. naive_solver.
  - rewrite lookup_insert_ne by done. naive_solver.
Qed.

Lemma edges_delete m k a b :
  edges (delete k m) a b ↔ a ≠ k ∧ edges m a b.
Proof.
  unfold edges. destruct (decide (a = k)) as [->|Hne].
  - rewrite lookup_delete_eq. simpl. split; [by intros ?%not_elem_of_empty|].
    by intros [? _].
  - rewrite lookup_delete_ne by done. naive_solver.
Qed.

Lemma edges_unset m x k a b :
  edges (unset x k m) a b ↔ edges m a b ∧ ¬ (a = k ∧ b = x).
Proof.
  unfold edges, unset. destruct (decide (a = k)) as [->|Hne].
  - rewrite lookup_alter_eq. destruct (m !! k) as [S|]; simpl.
    + rewrite elem_of_difference, elem_of_singleton. naive_solver.
    + split; [by intros ?%not_elem_of_empty|]. by intros [?%not_elem_of_empty _].
  - rewrite lookup_alter_ne by done. naive_solver.
Qed.

Lemma edges_scrub node dsts m a b :
  edges (scrub node dsts m) a b ↔ edges m a b ∧ ¬ (a ∈ dsts ∧ b = node).
Proof.
  unfold edges. rewrite scrub_lookup. case_decide as Ha.
  - destruct (m !! a) as [S|]; simpl.
    + rewrite elem_of_difference, elem_of_singleton. naive_solver.
    + split; [by intros ?%not_elem_of_empty|]. by intros [?%not_elem_of_empty _].
  - naive_solver.
Qed.

(** Every key of [out] is a key of [in], and every edge [in] records is
    an edge of [out]. *)
Definition half_mirror (g : Graph) : Prop :=
  dom (out g) ⊆ dom (in_ g) ∧
  ∀ src dst, edges (in_ g) dst src → edges (out g) src dst.

Lemma New_half_mirror : half_mirror New.
Proof.
  split; [done|]. intros s d H. unfold edges in H. simpl in H.
  rewrite lookup_empty in H. by apply not_elem_of_empty in H.
Qed.

Lemma Add_half_mirror node g : half_mirror g → half_mirror (Add node g).
Proof.
  intros [Hdom Hhalf]. unfold Add.
  destruct (out g !! node) as [S|] eqn:Hn; [done|]. split; simpl.
  - rewrite !dom_insert_L. set_solver.
  - intros s d. rewrite !edges_insert.
    intros [[_ H]|[Hd H]]; [by apply not_elem_of_empty in H|].
    apply Hhalf in H. right. split; [|done]. intros ->.
    apply edges_dom, elem_of_dom in H. rewrite Hn in H. by destruct H.
Qed.

Lemma Add_out_entry node g : is_Some (out (Add node g) !! node).
Proof.
  unfold Add. destruct (out g !! node) as [S|] eqn:Hn; simpl.
  - by rewrite Hn.
  - by rewrite lookup_insert_eq.
Qed.

Lemma Add_out_kept node g k : is_Some (out g !! k) → is_Some (out (Add node g) !! k).
Proof.
  unfold Add. destruct (out g !! node) as [S|] eqn:Hn; simpl; [done|].
  intros Hk. destruct (decide (node = k)) as [->|Hne].
  - by rewrite lookup_insert_eq.
  - by rewrite lookup_insert_ne.
Qed.

Lemma Remove_half_mirror node g : half_mirror g → half_mirror (Remove node g).
Proof.
  intros [Hdom Hhalf]. split; simpl.
  - rewrite scrub_dom, dom_delete_L. set_solver.
  - intros s d. rewrite edges_scrub, edges_delete.
    intros [H Hnot]. split; [|by apply Hhalf].
    intros ->. apply Hnot. split; [|done].
    apply Hhalf in H. unfold edges in H. by apply elem_of_elements.
Qed.

Lemma Unlink_half_mirror src dst g :
  half_mirror g → half_mirror (Unlink src dst g).
Proof.
  intros [Hdom Hhalf]. split; simpl.
  - unfold unset. by rewrite !dom_alter_L.
  - intros s d. rewrite !edges_unset. intros [H Hnot].
    split; [by apply Hhalf|]. intros [-> ->]. by apply Hnot.
Qed.

Lemma Link_half_mirror src dst g :
  half_mirror g → ∃ g', Link src dst g = Done g' ∧ half_mirror g'.
Proof.
  intros Hg.
  pose proof (Add_half_mirror dst _ (Add_half_mirror src g Hg)) as [Hdom Hhalf].
  unfold Link.
  destruct (Add_out_kept dst (Add src g) src (Add_out_entry src g)) as [o Ho].
  rewrite Ho.
  assert (Hi : is_Some (in_ (Add dst (Add src g)) !! dst)).
  { apply elem_of_dom, Hdom, elem_of_dom, Add_out_entry. }
  destruct Hi as [i Hi]. rewrite Hi.
  eexists. split; [done|]. split; simpl.
  - rewrite !dom_insert_L. intros x [Hx|Hx]%elem_of_union.
    + apply elem_of_singleton in Hx as ->. apply elem_of_union. right.
      apply Hdom, elem_of_dom. eauto.
    + apply elem_of_union. right. by apply Hdom.
  - intros s d. rewrite !edges_insert. intros [[-> H]|[Hne H]].
    + apply elem_of_union in H as [H|H].
      * assert (Hsd : edges (out (Add dst (Add src g))) s dst).
        { apply Hhalf. unfold edges. by rewrite Hi. }
        destruct (decide (s = src)) as [->|Hs]; [|by right].
        left. split; [done|]. set_solver.
      * apply elem_of_singleton in H as ->. left. split; [done|]. set_solver.
    + apply Hhalf in H. destruct (decide (s = src)) as [->|Hs]; [|by right].
      left. split; [done|]. unfold edges in H. rewrite Ho in H.
      apply elem_of_union. by left.
Qed.

(** No sequence of [Add], [Remove], [Link] and [Unlink] from the empty
    graph panics, and half of the mirror invariant holds after it. *)
Lemma run_ops_total os g :
  half_mirror g → ∃ g', run_ops os g = Done g' ∧ half_mirror g'.
Proof.
  revert g. induction os as [|o os IH]; intros g Hg; simpl.
  - by exists g.
  - destruct o as [n|n|s d|s d]; simpl.
    + apply IH. by apply Add_half_mirror.
    + apply IH. by apply Remove_half_mirror.
    + destruct (Link_half_mirror s d g Hg) as (g' & -> & Hg'). simpl.
      by apply IH.
    + apply IH. by apply Unlink_half_mirror.
Qed.

(** [Remove] and [Unlink] of what is not there change nothing. *)
Lemma Remove_absent node g : out g !! node = None → Remove node g = g.
Proof.
  intros Hn. destruct g as [o i]. unfold Remove. simpl in *.
  rewrite Hn. simpl. rewrite elements_empty. simpl.
  by rewrite delete_id.
Qed.

Lemma unset_absent x k m : m !! k = None → unset x k m = m.
Proof.
  intros Hk. apply map_eq. intros j. unfold unset.
  destruct (decide (k = j)) as [->|Hne].
  - by rewrite lookup_alter_eq, Hk.
  - by rewrite lookup_alter_ne.
Qed.

Lemma Unlink_absent src dst g :
  out g !! src = None → in_ g !! dst = None → Unlink src dst g = g.
Proof.
  intros Hs Hd. destruct g as [o i]. unfold Unlink. simpl in *.
  by rewrite !unset_absent.
Qed.

(** X15.  On the empty graph [StrongComponents] returns the empty list of
    components, and the graph as it was. *)
Lemma StrongComponents_New ord :
  visits_all ord → StrongComponents ord New = Done (New, []).
Proof.
  intros Hord. rewrite StrongComponents_unfold.
  assert (Hnil : ord O (dom (out New)) = []).
  { apply Permutation_nil_r. rewrite (Hord _ _). simpl.
    by rewrite dom_empty_L, elements_empty. }
  rewrite Hnil. reflexivity.
Qed.

(** ** The graphs of the scenarios *)

Lemma not_dense_witness g k (sz : nat) :
  k ∈ dom (out g) → size (out g) = sz → ¬ 0 ≤ k < Z.of_nat sz → ¬ dense g.
Proof. intros Hk <- Hr Hd. apply Hr, Hd, Hk. Qed.

Ltac not_dense k sz :=
  apply (not_dense_witness _ k sz);
  [compute_done | vm_compute; reflexivity | lia].

(** [Add(1)] on the empty graph. *)
Definition only_one : Graph :=
  {| out := {[1 := ∅]}; in_ := {[1 := ∅]} |}.

(** [Link(0,1); Remove(0)]. *)
Definition one_left : Graph :=
  {| out := {[1 := ∅]}; in_ := {[0 := ∅; 1 := ∅]} |}.

(** [Link(0,1)]. *)
Definition edge01 : Graph :=
  {| out := {[0 := {[1]}; 1 := ∅]}; in_ := {[0 := ∅; 1 := {[0]}]} |}.

(** [Link(0,1); Link(1,2)] and [Link(1,2); Link(2,3)]. *)
Definition chain012 : Graph :=
  {| out := {[0 := {[1]}; 1 := {[2]}; 2 := ∅]};
     in_ := {[0 := ∅; 1 := {[0]}; 2 := {[1]}]} |}.

Definition chain123 : Graph :=
  {| out := {[1 := {[2]}; 2 := {[3]}; 3 := ∅]};
     in_ := {[1 := ∅; 2 := {[1]}; 3 := {[2]}]} |}.

(** [Link(1,2); Link(2,1); Link(2,3); Remove(2)]: the entry [in[2]] and the
    edge to [2] in [out[1]] are still there. *)
Definition removed2 : Graph :=
  {| out := {[1 := {[2]}; 3 := ∅]};
     in_ := {[1 := ∅; 2 := {[1]}; 3 := ∅]} |}.

(** [Link(1,2); Link(2,1); Unlink(2,1)]. *)
Definition unlinked21 : Graph :=
  {| out := {[1 := {[2]}; 2 := ∅]}; in_ := {[1 := ∅; 2 := {[1]}]} |}.

(** [Link(0,1); Remove(1); Link(1,0)]: [out] has the edges [0→1] and
    [1→0], [in] only knows [1→0]. *)
Definition relinked : Graph :=
  {| out := {[0 := {[1]}; 1 := {[0]}]}; in_ := {[0 := {[1]}; 1 := ∅]} |}.

(** [Link(0,1); Remove(1); Add(1)]. *)
Definition readded : Graph :=
  {| out := {[0 := {[1]}; 1 := ∅]}; in_ := {[0 := ∅; 1 := ∅]} |}.

Example only_one_built : run_ops [OpAdd 1] New = Done only_one.
Proof. vm_compute. reflexivity. Qed.

Example one_left_built : run_ops [OpLink 0 1; OpRemove 0] New = Done one_left.
Proof. vm_compute. reflexivity. Qed.

Example edge01_built : run_ops [OpLink 0 1] New = Done edge01.
Proof. vm_compute. reflexivity. Qed.

Example chain012_built : run_ops [OpLink 0 1; OpLink 1 2] New = Done chain012.
Proof. vm_compute. reflexivity. Qed.

Example chain123_built : run_ops [OpLink 1 2; OpLink 2 3] New = Done chain123.
Proof. vm_compute. reflexivity. Qed.

Example removed2_built :
  run_ops [OpLink 1 2; OpLink 2 1; OpLink 2 3; OpRemove 2] New = Done removed2.
Proof. vm_compute. reflexivity. Qed.

Example unlinked21_built :
  run_ops [OpLink 1 2; OpLink 2 1; OpUnlink 2 1] New = Done unlinked21.
Proof. vm_compute. reflexivity. Qed.

Example relinked_built :
  run_ops [OpLink 0 1; OpRemove 1; OpLink 1 0] New = Done relinked.
Proof. vm_compute. reflexivity. Qed.

Example readded_built :
  run_ops [OpLink 0 1; OpRemove 1; OpAdd 1] New = Done readded.
Proof. vm_compute. reflexivity. Qed.

Example edge01_well_formed : well_formed edge01.
Proof. apply well_formed_check_ok. unfold well_formed_check. compute_done. Defined.

Example chain012_well_formed : well_formed chain012.
Proof. apply well_formed_check_ok. unfold well_formed_check. compute_done. Defined.

(** The unlink scenario on the nodes [0] and [1]. *)
Definition unlinked10 : Graph :=
  {| out := {[0 := {[1]}; 1 := ∅]}; in_ := {[0 := ∅; 1 := {[0]}]} |}.

Example unlinked10_components :
  run_ops [OpLink 0 1; OpLink 1 0; OpUnlink 1 0] New = Done unlinked10 ∧
  StrongComponents ascending unlinked10 = Done (unlinked10, [[0]; [1]]) ∧
  StrongComponents descending unlinked10 = Done (unlinked10, [[0]; [1]]).
Proof. repeat split; vm_compute; reflexivity. Qed.

(** ** Well-formed graphs: what the code guarantees *)

(** X17.  On a well-formed graph (the maps mirror each other, the nodes
    are [0 .. n-1]) [StrongComponents] returns, each node is in exactly one
    component, and two nodes share a component exactly when they reach
    each other, whatever the iteration order. *)
Lemma StrongComponents_strong ord g :
  visits_all ord → well_formed g →
  ∃ cs, StrongComponents ord g = Done (g, cs) ∧
        concat cs ≡ₚ elements (dom (out g)) ∧
        ∀ u v, u ∈ concat cs → v ∈ concat cs →
               same_component cs u v ↔ mutually_reachable g u v.
Proof.
  intros Hord Hwf.
  destruct (StrongComponents_well_formed ord Hord g Hwf) as (cs & Heq & Hco).
  exists cs. split; [done|]. split; [apply Hco|].
  intros u v Hu Hv. apply components_scc; auto. apply Hwf.
Qed.

(** Whenever [StrongComponents] returns, its components hold each key of
    [out] exactly once, and nothing else. *)
Lemma StrongComponents_partition ord g g' cs :
  visits_all ord → StrongComponents ord g = Done (g', cs) →
  concat cs ≡ₚ elements (dom (out g)).
Proof.
  intros Hord Heq. pose proof (StrongComponents_spec ord Hord g) as H.
  rewrite Heq in H. destruct H as [_ H]. apply H.
Qed.

(** ** The chain [0 → 1 → 2] *)

Lemma concat_elem_NoDup (cs : list (list Z)) c :
  NoDup (concat cs) → c ∈ cs → NoDup c.
Proof.
  intros Hnd (l1 & l2 & ->)%list_elem_of_split.
  rewrite concat_app in Hnd. simpl in Hnd.
  apply NoDup_app in Hnd as (_ & _ & Hnd).
  by apply NoDup_app in Hnd as (Hnd & _ & _).
Qed.

Lemma concat_singletons (cs : list (list Z)) :
  (∀ c, c ∈ cs → ∃ x, c = [x]) → length (concat cs) = length cs.
Proof.
  induction cs as [|c cs IH]; intros Hs; [done|]. simpl.
  destruct (Hs c) as [x ->]; [left|]. simpl. f_equal. apply IH.
  intros c' Hc'. apply Hs. by right.
Qed.

Lemma chain012_edges a b : edges (out chain012) a b → b = a + 1.
Proof.
  intros Hab. pose proof (edges_dom _ _ _ Hab) as Ha.
  assert (Hdom : dom (out chain012) = {[0; 1; 2]})
    by (vm_compute; reflexivity).
  rewrite Hdom in Ha.
  apply edges_lookup in Hab as (S & HS & Hb).
  apply elem_of_union in Ha as [Ha|Ha];
    [apply elem_of_union in Ha as [Ha|Ha]|];
    apply elem_of_singleton in Ha as ->.
  - assert (E : out chain012 !! 0 = Some {[1]}) by (vm_compute; reflexivity).
    rewrite E in HS. injection HS as <-.
    by apply elem_of_singleton in Hb as ->.
  - assert (E : out chain012 !! 1 = Some {[2]}) by (vm_compute; reflexivity).
    rewrite E in HS. injection HS as <-.
    by apply elem_of_singleton in Hb as ->.
  - assert (E : out chain012 !! 2 = Some ∅) by (vm_compute; reflexivity).
    rewrite E in HS. injection HS as <-.
    by apply not_elem_of_empty in Hb.
Qed.

Lemma chain012_reach a b : reach (out chain012) a b → a ≤ b.
Proof.
  induction 1 as [|a c b Hac _ IH]; [lia|].
  apply chain012_edges in Hac. lia.
Qed.

Section Chain.

Variable cs : list (list Z).
Hypothesis Hco : components_of chain012 cs.

Lemma chain012_singleton c : c ∈ cs → ∃ x, c = [x].
Proof.
  intros Hc. pose proof (co_nonempty _ _ Hco c Hc) as Hne.
  pose proof (concat_elem_NoDup cs c (components_NoDup _ _ Hco) Hc) as Hnd.
  destruct c as [|x [|y c]]; [done|by exists x|].
  assert (Hmir : mirror chain012) by apply chain012_well_formed.
  assert (x = y).
  { pose proof (co_scc _ _ Hco Hmir _ x y Hc) as Hxy.
    pose proof (co_scc _ _ Hco Hmir _ y x Hc) as Hyx.
    apply chain012_reach in Hxy; [|by left|by right; left].
    apply chain012_reach in Hyx; [|by right; left|by left]. lia. }
  subst y. apply NoDup_cons in Hnd as [Hnd _]. destruct Hnd. by left.
Qed.

Lemma chain012_place x :
  0 ≤ x ≤ 2 → ∃ i, cs !! i = Some [x].
Proof.
  intros Hx. assert (Hin : x ∈ concat cs).
  { rewrite (co_perm _ _ Hco). apply elem_of_elements.
    assert (Hdom : dom (out chain012) = {[0; 1; 2]})
      by (vm_compute; reflexivity).
    rewrite Hdom. rewrite !elem_of_union, !elem_of_singleton. lia. }
  apply elem_of_concat in Hin as (c & Hxc & Hc).
  destruct (chain012_singleton c Hc) as [y ->].
  apply list_elem_of_singleton in Hxc as <-.
  by apply list_elem_of_lookup_1 in Hc.
Qed.

(** The component of [x] comes before the component of [x + 1]. *)
Lemma chain012_before x i j :
  edges (in_ chain012) (x + 1) x →
  cs !! i = Some [x] → cs !! j = Some [x + 1] → (i < j)%nat.
Proof.
  intros Hin Hi Hj.
  pose proof (co_pred _ _ Hco j [x + 1] (x + 1) x Hj) as Hup.
  apply upto_elem in Hup as (k & C & Hk & HC & HxC);
    [|by apply list_elem_of_singleton|done].
  assert (i = k).
  { apply (concat_place cs i k [x] C x (components_NoDup _ _ Hco)); auto.
    by apply list_elem_of_singleton. }
  subst k. destruct (decide (i = j)) as [->|]; [|lia].
  rewrite Hi in Hj. injection Hj. lia.
Qed.

Lemma chain012_components : cs = [[0]; [1]; [2]].
Proof.
  destruct (chain012_place 0) as [i0 H0]; [lia|].
  destruct (chain012_place 1) as [i1 H1]; [lia|].
  destruct (chain012_place 2) as [i2 H2]; [lia|].
  assert (H01 : (i0 < i1)%nat).
  { apply (chain012_before 0 i0 i1); auto. unfold edges. compute_done. }
  assert (H12 : (i1 < i2)%nat).
  { apply (chain012_before 1 i1 i2); auto. unfold edges. compute_done. }
  assert (Hlen : length cs = 3%nat).
  { rewrite <- (concat_singletons cs chain012_singleton).
    rewrite (co_perm _ _ Hco). vm_compute. reflexivity. }
  pose proof (lookup_lt_Some _ _ _ H2) as Hlt.
  assert (i0 = 0%nat) by lia. assert (i1 = 1%nat) by lia.
  assert (i2 = 2%nat) by lia. subst.
  destruct cs as [|c0 [|c1 [|c2 [|c3 cs']]]]; simpl in Hlen; try lia.
  simpl in H0, H1, H2. congruence.
Qed.

End Chain.

(** ** Graphs that only mirror

    For the order of the components the two maps need not have the same
    keys: it is enough that they mirror each other.  [Remove] leaves such
    graphs when the node removed has no edge coming in. *)

(** Every edge of [out] points to a key of [out]. *)
Definition links_to_nodes (g : Graph) : Prop :=
  ∀ a b, edges (out g) a b → b ∈ dom (out g).

Definition mirror_check (g : Graph) : Prop :=
  map_Forall (λ s S, set_Forall (λ d, s ∈ default ∅ (in_ g !! d)) S) (out g) ∧
  map_Forall (λ d S, set_Forall (λ s, d ∈ default ∅ (out g !! s)) S) (in_ g).

Lemma mirror_check_ok g : mirror_check g → mirror g.
Proof.
  intros (Ho & Hi) s d. split.
  - intros (S & HS & Hd')%edges_lookup. exact (Ho s S HS d Hd').
  - intros (S & HS & Hs')%edges_lookup. exact (Hi d S HS s Hs').
Qed.

Lemma links_to_nodes_check g :
  map_Forall (λ _ S, set_Forall (λ d, d ∈ dom (out g)) S) (out g) →
  links_to_nodes g.
Proof.
  intros H a b (S & HS & Hb)%edges_lookup. exact (H a S HS b Hb).
Qed.

Lemma mirror_closed_in g :
  mirror g → dense g → closed (in_ g) (size (out g)).
Proof.
  intros Hmir Hd a b _ Hab. apply Hd.
  apply (edges_dom _ b a). by apply Hmir.
Qed.

Lemma links_closed_out g :
  links_to_nodes g → dense g → closed (out g) (size (out g)).
Proof. intros Hl Hd a b _ Hab. by apply Hd, (Hl a b). Qed.

(** [Link(2,0); Link(0,1); Remove(2)]: the maps mirror each other and the
    keys of [out] are [0, 1], but [in] still has the key [2]. *)
Definition stale_key : Graph :=
  {| out := {[0 := {[1]}; 1 := ∅]};
     in_ := {[0 := ∅; 1 := {[0]}; 2 := ∅]} |}.

Example stale_key_built :
  run_ops [OpLink 2 0; OpLink 0 1; OpRemove 2] New = Done stale_key.
Proof. vm_compute. reflexivity. Qed.

Example stale_key_mirror : mirror stale_key.
Proof. apply mirror_check_ok. unfold mirror_check. compute_done. Defined.

Example stale_key_dense : dense stale_key.
Proof.
  change (set_Forall (λ k, 0 ≤ k < Z.of_nat (size (out stale_key)))
            (dom (out stale_key))).
  compute_done.
Defined.

Example stale_key_links : links_to_nodes stale_key.
Proof. apply links_to_nodes_check. compute_done. Defined.

Example stale_key_keys : dom (in_ stale_key) ≠ dom (out stale_key).
Proof. compute_done. Qed.

(** * The properties of the specification *)

(** C1.  On the graph left by [Link(0,1); Remove(1); Link(1,0)] the answer
    depends on the iteration order.  Ranging from the largest key down,
    [StrongComponents] puts [0] and [1] in two components although they
    reach each other through [out]; ranging from the smallest key up, it
    puts them in one component although, by what [in] records, nothing
    leads from [0] to [1]. *)
Theorem stale_edge_splits_cycle :
  run_ops [OpLink 0 1; OpRemove 1; OpLink 1 0] New = Done relinked ∧
  (StrongComponents descending relinked = Done (relinked, [[1]; [0]]) ∧
   mutually_reachable relinked 0 1 ∧
   ¬ same_component [[1]; [0]] 0 1) ∧
  (StrongComponents ascending relinked = Done (relinked, [[1; 0]]) ∧
   same_component [[1; 0]] 0 1 ∧
   ¬ reach (in_ relinked) 1 0).
Proof.
  split; [exact relinked_built|]. split.
  - split; [vm_compute; reflexivity|]. split.
    + split; apply rtc_once; unfold edges; compute_done.
    + intros (c & Hc & Hzero & Hone).
      apply elem_of_cons in Hc as [->|Hc].
      * by apply list_elem_of_singleton in Hzero.
      * apply list_elem_of_singleton in Hc as ->.
        by apply list_elem_of_singleton in Hone.
  - split; [vm_compute; reflexivity|]. split.
    + exists [1; 0]. split; [by left|]. split; [by right; left|by left].
    + intros Hr. apply rtc_inv in Hr as [[=]|(c & Hc & _)].
      unfold edges in Hc.
      assert (E : in_ relinked !! 1 = Some ∅) by (vm_compute; reflexivity).
      rewrite E in Hc. by apply not_elem_of_empty in Hc.
Qed.

(** C2, as the code has it.  On a graph whose [in] map mirrors its [out]
    map, whenever [StrongComponents] returns, a component with an edge
    into another component comes before it; and it does return when,
    besides, the keys of [out] are [0 .. n-1] and every edge of [out]
    points to one of them.  The two maps need not have the same keys. *)
Theorem StrongComponents_dependents_first ord g :
  visits_all ord → mirror g →
  (∀ g' cs, StrongComponents ord g = Done (g', cs) → dependents_first g cs) ∧
  (dense g → links_to_nodes g →
   ∃ cs, StrongComponents ord g = Done (g, cs) ∧ dependents_first g cs).
Proof.
  intros Hord Hmir.
  assert (Hret : ∀ g' cs, StrongComponents ord g = Done (g', cs) →
                          dependents_first g cs).
  { intros g' cs Heq. pose proof (StrongComponents_spec ord Hord g) as H.
    rewrite Heq in H. destruct H as [_ Hco]. by apply components_order. }
  split; [exact Hret|]. intros Hd Hl.
  destruct (proj2 (StrongComponents_returns_iff ord Hord g)) as (cs & Heq).
  { split; [done|]. split.
    - by apply links_closed_out.
    - by apply mirror_closed_in. }
  exists cs. split; [done|]. by apply (Hret g cs).
Qed.

Lemma StrongComponents_dependents_first_witness :
  visits_all descending ∧ mirror stale_key ∧
  dense stale_key ∧ links_to_nodes stale_key ∧
  ∃ cs, StrongComponents descending stale_key = Done (stale_key, cs) ∧
        dependents_first stale_key cs.
Proof.
  split; [exact descending_visits_all|]. split; [exact stale_key_mirror|].
  split; [exact stale_key_dense|]. split; [exact stale_key_links|].
  exact (proj2 (StrongComponents_dependents_first descending stale_key
                  descending_visits_all stale_key_mirror)
           stale_key_dense stale_key_links).
Defined.

(** C2, as stated, fails on the graph of [Link(0,1)]: the component of
    [0] has an edge into the component of [1] and is returned first. *)
Lemma depended_first_fails :
  run_ops [OpLink 0 1] New = Done edge01 ∧
  StrongComponents ascending edge01 = Done (edge01, [[0]; [1]]) ∧
  ¬ depended_first edge01 [[0]; [1]].
Proof.
  split; [exact edge01_built|]. split; [vm_compute; reflexivity|].
  intros Hdf.
  assert (Hlt : (1 < 0)%nat); [|lia].
  apply (Hdf 0%nat 1%nat [0] [1] 0 1); try done;
    try (apply list_elem_of_singleton; reflexivity).
Qed.

(** C3.  After [Link(0,1); Remove(0)] the node [1] is present, yet
    [StrongComponents] returns no components at all: it panics on
    [d.flip[1]], whatever the iteration order. *)
Theorem StrongComponents_loses_node_after_Remove ord :
  visits_all ord →
  run_ops [OpLink 0 1; OpRemove 0] New = Done one_left ∧
  1 ∈ dom (out one_left) ∧ 1 ∈ dom (in_ one_left) ∧
  StrongComponents ord one_left = Panics.
Proof.
  intros Hord. split; [exact one_left_built|].
  split; [compute_done|]. split; [compute_done|].
  apply StrongComponents_not_dense; [done|]. not_dense 1 1%nat.
Qed.

Lemma StrongComponents_loses_node_after_Remove_witness :
  visits_all ascending ∧
  (run_ops [OpLink 0 1; OpRemove 0] New = Done one_left ∧
   1 ∈ dom (out one_left) ∧ 1 ∈ dom (in_ one_left) ∧
   StrongComponents ascending one_left = Panics).
Proof.
  split; [exact ascending_visits_all|].
  exact (StrongComponents_loses_node_after_Remove ascending
           ascending_visits_all).
Defined.

(** C4.  [StrongComponents] is not total: on the graph with the single
    node [1] the marker slice has length one and [d.flip[1]] is out of
    range, whatever the iteration order. *)
Theorem StrongComponents_panics_on_node_1 ord :
  visits_all ord →
  run_ops [OpAdd 1] New = Done only_one ∧
  StrongComponents ord only_one = Panics.
Proof.
  intros Hord. split; [exact only_one_built|].
  apply StrongComponents_not_dense; [done|]. not_dense 1 1%nat.
Qed.

Lemma StrongComponents_panics_on_node_1_witness :
  visits_all ascending ∧
  (run_ops [OpAdd 1] New = Done only_one ∧
   StrongComponents ascending only_one = Panics).
Proof.
  split; [exact ascending_visits_all|].
  exact (StrongComponents_panics_on_node_1 ascending
           ascending_visits_all).
Defined.

(** C5.  [Remove] scrubs the node from the [in] set of each of its
    successors and deletes its entry of [out], and that entry only: the
    keys of [in] are what they were, so a node that was present still has
    its [in] entry afterwards. *)
Theorem Remove_keeps_in_entry node g :
  (∀ dst, edges (out g) node dst → ¬ edges (in_ (Remove node g)) dst node) ∧
  out (Remove node g) !! node = None ∧
  dom (in_ (Remove node g)) = dom (in_ g).
Proof.
  split; [|split]; simpl.
  - intros dst Hd. rewrite edges_scrub. intros [_ Hnot]. apply Hnot.
    split; [|done]. by apply elem_of_elements.
  - apply lookup_delete_eq.
  - apply scrub_dom.
Qed.

(** C6.  The mirror invariant does not survive [Remove]: after
    [Link(0,1); Remove(1); Add(1)] the node [1] is in [out[0]] while [0]
    is not in [in[1]]. *)
Theorem mirror_broken_after_Remove :
  run_ops [OpLink 0 1; OpRemove 1; OpAdd 1] New = Done readded ∧
  edges (out readded) 0 1 ∧ ¬ edges (in_ readded) 1 0.
Proof.
  split; [exact readded_built|]. unfold edges. split; compute_done.
Qed.

(** C7.  Removal scenario: after [Link(1,2); Link(2,1); Link(2,3);
    Remove(2)] the node [2] still has its [in] entry and is still in
    [out[1]], and [StrongComponents] panics, whatever the iteration
    order. *)
Theorem removal_scenario_panics ord :
  visits_all ord →
  run_ops [OpLink 1 2; OpLink 2 1; OpLink 2 3; OpRemove 2] New
    = Done removed2 ∧
  edges (out removed2) 1 2 ∧ 2 ∈ dom (in_ removed2) ∧
  StrongComponents ord removed2 = Panics.
Proof.
  intros Hord. split; [exact removed2_built|].
  split; [unfold edges; compute_done|]. split; [compute_done|].
  apply StrongComponents_not_dense; [done|]. not_dense 3 2%nat.
Qed.

Lemma removal_scenario_panics_witness :
  visits_all ascending ∧
  (run_ops [OpLink 1 2; OpLink 2 1; OpLink 2 3; OpRemove 2] New
     = Done removed2 ∧
   edges (out removed2) 1 2 ∧ 2 ∈ dom (in_ removed2) ∧
   StrongComponents ascending removed2 = Panics).
Proof.
  split; [exact ascending_visits_all|].
  exact (removal_scenario_panics ascending ascending_visits_all).
Defined.

(** C8, as the code has it.  Simple chain on the nodes [0, 1, 2]: after
    [Link(0,1); Link(1,2)], [StrongComponents] returns [[0]; [1]; [2]],
    whatever the iteration order: the node nothing points to first, the
    node that points to nothing last. *)
Theorem chain_scenario_from_zero ord :
  visits_all ord →
  run_ops [OpLink 0 1; OpLink 1 2] New = Done chain012 ∧
  StrongComponents ord chain012 = Done (chain012, [[0]; [1]; [2]]).
Proof.
  intros Hord. split; [exact chain012_built|].
  destruct (StrongComponents_well_formed ord Hord chain012
              chain012_well_formed) as (cs & Heq & Hco).
  by rewrite Heq, (chain012_components cs Hco).
Qed.

Lemma chain_scenario_from_zero_witness :
  visits_all descending ∧
  (run_ops [OpLink 0 1; OpLink 1 2] New = Done chain012 ∧
   StrongComponents descending chain012 = Done (chain012, [[0]; [1]; [2]])).
Proof.
  split; [exact descending_visits_all|].
  exact (chain_scenario_from_zero descending descending_visits_all).
Defined.

(** C8, as stated, fails: on the nodes [1, 2, 3] the marker slice has
    length three and [d.flip[3]] is out of range, and on the nodes
    [0, 1, 2] the order returned is the opposite one. *)
Lemma chain_scenario_fails :
  run_ops [OpLink 1 2; OpLink 2 3] New = Done chain123 ∧
  StrongComponents ascending chain123 = Panics ∧
  StrongComponents ascending chain123
    ≠ Done (chain123, [[3]; [2]; [1]]) ∧
  StrongComponents ascending chain012
    ≠ Done (chain012, [[2]; [1]; [0]]).
Proof.
  split; [exact chain123_built|].
  assert (H : StrongComponents ascending chain123 = Panics)
    by (vm_compute; reflexivity).
  split; [exact H|]. split; [by rewrite H|].
  assert (H' : StrongComponents ascending chain012
               = Done (chain012, [[0]; [1]; [2]])) by (vm_compute; reflexivity).
  rewrite H'. intros [=].
Qed.

(** C9.  Unlink scenario: after [Link(1,2); Link(2,1); Unlink(2,1)] the
    marker slice has length two and [d.flip[2]] is out of range:
    [StrongComponents] panics, whatever the iteration order. *)
Theorem unlink_scenario_panics ord :
  visits_all ord →
  run_ops [OpLink 1 2; OpLink 2 1; OpUnlink 2 1] New = Done unlinked21 ∧
  StrongComponents ord unlinked21 = Panics.
Proof.
  intros Hord. split; [exact unlinked21_built|].
  apply StrongComponents_not_dense; [done|]. not_dense 2 2%nat.
Qed.

Lemma unlink_scenario_panics_witness :
  visits_all ascending ∧
  (run_ops [OpLink 1 2; OpLink 2 1; OpUnlink 2 1] New = Done unlinked21 ∧
   StrongComponents ascending unlinked21 = Panics).
Proof.
  split; [exact ascending_visits_all|].
  exact (unlink_scenario_panics ascending ascending_visits_all).
Defined.

(** C10.  [StrongComponents] never modifies the graph: in whatever order
    the [range] statements go, when the call returns the [out] and [in]
    maps are the ones it was called with. *)
Theorem StrongComponents_leaves_graph ord g g' cs :
  StrongComponents ord g = Done (g', cs) →
  out g' = out g ∧ in_ g' = in_ g.
Proof.
  intros Heq. apply StrongComponents_mem in Heq. by subst g'.
Qed.

Lemma StrongComponents_leaves_graph_witness :
  StrongComponents ascending chain012 = Done (chain012, [[0]; [1]; [2]]) ∧
  (out chain012 = out chain012 ∧ in_ chain012 = in_ chain012).
Proof.
  split; [vm_compute; reflexivity|].
  apply (StrongComponents_leaves_graph ascending chain012 chain012
           [[0]; [1]; [2]]).
  vm_compute. reflexivity.
Defined.

(** * Further properties of the graph operations *)

Lemma Add_existing node g : is_Some (out g !! node) → Add node g = g.
Proof. intros [S HS]. unfold Add. by rewrite HS. Qed.

Lemma Add_out_dom node g : dom (out (Add node g)) = {[node]} ∪ dom (out g).
Proof.
  unfold Add. destruct (out g !! node) as [S|] eqn:Hn; simpl.
  - apply set_eq. intros x. rewrite elem_of_union, elem_of_singleton.
    split; [by right|]. intros [->|?]; [|done]. apply elem_of_dom. eauto.
  - apply dom_insert_L.
Qed.

Lemma Add_out_edges node g a b :
  edges (out (Add node g)) a b ↔ edges (out g) a b.
Proof.
  unfold Add. destruct (out g !! node) as [S|] eqn:Hn; [done|]. simpl.
  rewrite edges_insert. split.
  - intros [[_ Hb]|[_ Hab]]; [by apply not_elem_of_empty in Hb|done].
  - intros Hab. right. split; [|done]. intros ->.
    apply edges_dom, elem_of_dom in Hab. rewrite Hn in Hab. by destruct Hab.
Qed.

(** X1.  [Add] is idempotent: adding a node twice is adding it once.  The
    node has its [out] entry afterwards, and no edge of [out] is added or
    lost. *)
Theorem Add_idempotent node g :
  Add node (Add node g) = Add node g ∧
  node ∈ dom (out (Add node g)) ∧
  ∀ a b, edges (out (Add node g)) a b ↔ edges (out g) a b.
Proof.
  split; [|split].
  - apply Add_existing, Add_out_entry.
  - apply elem_of_dom, Add_out_entry.
  - apply Add_out_edges.
Qed.

(** Graphs in which [in] has the keys of [out]. *)
Definition same_keys (g : Graph) : Prop := dom (in_ g) = dom (out g).

Lemma Add_same_keys node g : same_keys g → same_keys (Add node g).
Proof.
  unfold same_keys, Add. intros Hk.
  destruct (out g !! node) as [S|] eqn:Hn; [done|]. simpl.
  by rewrite !dom_insert_L, Hk.
Qed.

Lemma Add_in_edges node g a b :
  same_keys g → edges (in_ (Add node g)) a b ↔ edges (in_ g) a b.
Proof.
  unfold same_keys, Add. intros Hk.
  destruct (out g !! node) as [S|] eqn:Hn; [done|]. simpl.
  rewrite edges_insert. split.
  - intros [[_ Hb]|[_ Hab]]; [by apply not_elem_of_empty in Hb|done].
  - intros Hab. right. split; [|done]. intros ->.
    apply edges_dom in Hab. rewrite Hk in Hab.
    apply elem_of_dom in Hab. rewrite Hn in Hab. by destruct Hab.
Qed.

Lemma Link_effect src dst g :
  same_keys g →
  ∃ g', Link src dst g = Done g' ∧
        dom (out g') = {[src; dst]} ∪ dom (out g) ∧
        same_keys g' ∧
        (∀ a b, edges (out g') a b ↔ edges (out g) a b ∨ (a = src ∧ b = dst)) ∧
        (∀ a b, edges (in_ g') a b ↔ edges (in_ g) a b ∨ (a = dst ∧ b = src)).
Proof.
  intros Hk.
  pose proof (Add_same_keys dst _ (Add_same_keys src g Hk)) as Hk2.
  assert (Hoe : ∀ a b, edges (out (Add dst (Add src g))) a b ↔ edges (out g) a b).
  { intros a b. by rewrite !Add_out_edges. }
  assert (Hie : ∀ a b, edges (in_ (Add dst (Add src g))) a b ↔ edges (in_ g) a b).
  { intros a b. rewrite Add_in_edges by (by apply Add_same_keys).
    by apply Add_in_edges. }
  assert (Hod : dom (out (Add dst (Add src g))) = {[src; dst]} ∪ dom (out g)).
  { rewrite !Add_out_dom. apply set_eq. intros x.
    rewrite !elem_of_union, !elem_of_singleton. tauto. }
  unfold Link.
  destruct (Add_out_kept dst (Add src g) src (Add_out_entry src g)) as [o Ho].
  rewrite Ho.
  assert (Hi : is_Some (in_ (Add dst (Add src g)) !! dst)).
  { apply elem_of_dom. rewrite Hk2. apply elem_of_dom, Add_out_entry. }
  destruct Hi as [i Hi]. rewrite Hi.
  eexists. split; [done|]. simpl. split; [|split; [|split]].
  - rewrite dom_insert_L, Hod. apply set_eq. intros x.
    rewrite !elem_of_union, !elem_of_singleton. tauto.
  - unfold same_keys. simpl. rewrite !dom_insert_L, Hk2, Hod.
    apply set_eq. intros x. rewrite !elem_of_union, !elem_of_singleton. tauto.
  - intros a b. rewrite edges_insert, elem_of_union, elem_of_singleton.
    rewrite <- Hoe. destruct (decide (a = src)) as [->|Hne].
    + unfold edges at 2. rewrite Ho. simpl. tauto.
    + tauto.
  - intros a b. rewrite edges_insert, elem_of_union, elem_of_singleton.
    rewrite <- Hie. destruct (decide (a = dst)) as [->|Hne].
    + unfold edges at 2. rewrite Hi. simpl. tauto.
    + tauto.
Qed.

(** X2.  On a graph whose two maps have the same keys, [Link] returns;
    afterwards both endpoints are nodes, the maps still have the same
    keys, and each map has gained the edge [src → dst] and nothing else. *)
Theorem Link_adds_edge src dst g :
  same_keys g →
  ∃ g', Link src dst g = Done g' ∧
        dom (out g') = {[src; dst]} ∪ dom (out g) ∧
        same_keys g' ∧
        (∀ a b, edges (out g') a b ↔ edges (out g) a b ∨ (a = src ∧ b = dst)) ∧
        (∀ a b, edges (in_ g') a b ↔ edges (in_ g) a b ∨ (a = dst ∧ b = src)).
Proof. apply Link_effect. Qed.

Lemma Link_adds_edge_witness :
  same_keys edge01 ∧
  ∃ g', Link 1 0 edge01 = Done g' ∧
        dom (out g') = {[1; 0]} ∪ dom (out edge01) ∧
        same_keys g' ∧
        (∀ a b, edges (out g') a b ↔ edges (out edge01) a b ∨ (a = 1 ∧ b = 0)) ∧
        (∀ a b, edges (in_ g') a b ↔ edges (in_ edge01) a b ∨ (a = 0 ∧ b = 1)).
Proof.
  assert (H : same_keys edge01) by (vm_compute; reflexivity).
  split; [exact H|]. exact (Link_adds_edge 1 0 edge01 H).
Defined.

(** X3.  [Link] is idempotent: linking an edge that [Link] has just made
    returns the same graph. *)
Theorem Link_idempotent src dst g g' :
  Link src dst g = Done g' → Link src dst g' = Done g'.
Proof.
  unfold Link at 1.
  destruct (out (Add dst (Add src g)) !! src) as [o|] eqn:Ho; [|done].
  destruct (in_ (Add dst (Add src g)) !! dst) as [i|] eqn:Hi; [|done].
  intros [= <-]. set (g2 := Add dst (Add src g)) in *.
  set (g' := {| out := <[src:=o ∪ {[dst]}]> (out g2);
                in_ := <[dst:=i ∪ {[src]}]> (in_ g2) |}).
  assert (Hs : Add src g' = g').
  { apply Add_existing. simpl. rewrite lookup_insert_eq. eauto. }
  assert (Hd : Add dst g' = g').
  { apply Add_existing. simpl. destruct (decide (src = dst)) as [->|Hne].
    - rewrite lookup_insert_eq. eauto.
    - rewrite lookup_insert_ne by done. apply Add_out_entry. }
  unfold Link. rewrite Hs, Hd. simpl. rewrite !lookup_insert_eq.
  unfold g'. f_equal. f_equal.
  - rewrite insert_insert_eq. f_equal. apply set_eq. intros x.
    rewrite !elem_of_union. tauto.
  - rewrite insert_insert_eq. f_equal. apply set_eq. intros x.
    rewrite !elem_of_union. tauto.
Qed.

Lemma Link_idempotent_witness :
  Link 0 1 New = Done edge01 ∧ Link 0 1 edge01 = Done edge01.
Proof.
  assert (H : Link 0 1 New = Done edge01) by (vm_compute; reflexivity).
  split; [exact H|]. exact (Link_idempotent 0 1 New edge01 H).
Defined.

(** X4.  [Unlink] removes the edge [src → dst] from both maps and nothing
    else: every other edge stays, and no key of either map is removed,
    even when a node is left without edges. *)
Theorem Unlink_removes_edge src dst g :
  dom (out (Unlink src dst g)) = dom (out g) ∧
  dom (in_ (Unlink src dst g)) = dom (in_ g) ∧
  (∀ a b, edges (out (Unlink src dst g)) a b
          ↔ edges (out g) a b ∧ ¬ (a = src ∧ b = dst)) ∧
  (∀ a b, edges (in_ (Unlink src dst g)) a b
          ↔ edges (in_ g) a b ∧ ¬ (a = dst ∧ b = src)).
Proof.
  unfold Unlink. simpl. split; [|split; [|split]].
  - apply dom_alter_L.
  - apply dom_alter_L.
  - intros a b. apply edges_unset.
  - intros a b. apply edges_unset.
Qed.

Lemma unset_no_edge x k m : ¬ edges m k x → unset x k m = m.
Proof.
  intros Hno. apply map_eq. intros j. unfold unset.
  destruct (decide (k = j)) as [<-|Hne]; [|by rewrite lookup_alter_ne].
  rewrite lookup_alter_eq. unfold edges in Hno.
  destruct (m !! k) as [S|]; simpl in *; [|done].
  f_equal. apply set_eq. intros y.
  rewrite elem_of_difference, elem_of_singleton. split; [tauto|].
  intros Hy. split; [done|]. by intros ->.
Qed.

(** X5.  [Unlink] of an edge that neither map has changes nothing, be it
    that a node is missing or only the edge. *)
Theorem Unlink_missing_edge src dst g :
  ¬ edges (out g) src dst → ¬ edges (in_ g) dst src → Unlink src dst g = g.
Proof.
  intros Ho Hi. destruct g as [o i]. unfold Unlink. simpl in *.
  by rewrite !unset_no_edge.
Qed.

Lemma Unlink_missing_edge_witness :
  ¬ edges (out edge01) 1 0 ∧ ¬ edges (in_ edge01) 0 1 ∧
  Unlink 1 0 edge01 = edge01.
Proof.
  assert (Ho : ¬ edges (out edge01) 1 0) by (unfold edges; compute_done).
  assert (Hi : ¬ edges (in_ edge01) 0 1) by (unfold edges; compute_done).
  split; [exact Ho|]. split; [exact Hi|].
  exact (Unlink_missing_edge 1 0 edge01 Ho Hi).
Defined.

(** X6.  [Link] then [Unlink] is a round trip: when both nodes are there
    and neither map has the edge, unlinking the edge just linked gives the
    graph back. *)
Theorem Link_Unlink_round_trip src dst g :
  is_Some (out g !! src) → is_Some (out g !! dst) → is_Some (in_ g !! dst) →
  ¬ edges (out g) src dst → ¬ edges (in_ g) dst src →
  ∃ g', Link src dst g = Done g' ∧ Unlink src dst g' = g.
Proof.
  intros Hs Hd [i Hi] Hno Hni. unfold Link.
  rewrite (Add_existing src g Hs), (Add_existing dst g Hd).
  destruct Hs as [o Ho]. rewrite Ho, Hi.
  eexists. split; [done|]. destruct g as [mo mi]. unfold Unlink. simpl in *.
  unfold edges in Hno, Hni. rewrite Ho in Hno. rewrite Hi in Hni.
  simpl in Hno, Hni. f_equal.
  - apply map_eq. intros j. unfold unset.
    destruct (decide (src = j)) as [<-|Hne].
    + rewrite lookup_alter_eq, lookup_insert_eq, Ho. simpl. f_equal.
      apply set_eq. intros y.
      rewrite elem_of_difference, elem_of_union, elem_of_singleton.
      split; [tauto|]. intros Hy. split; [tauto|]. by intros ->.
    + by rewrite lookup_alter_ne, lookup_insert_ne.
  - apply map_eq. intros j. unfold unset.
    destruct (decide (dst = j)) as [<-|Hne].
    + rewrite lookup_alter_eq, lookup_insert_eq, Hi. simpl. f_equal.
      apply set_eq. intros y.
      rewrite elem_of_difference, elem_of_union, elem_of_singleton.
      split; [tauto|]. intros Hy. split; [tauto|]. by intros ->.
    + by rewrite lookup_alter_ne, lookup_insert_ne.
Qed.

Lemma Link_Unlink_round_trip_witness :
  is_Some (out edge01 !! 1) ∧ is_Some (out edge01 !! 0) ∧
  is_Some (in_ edge01 !! 0) ∧
  ¬ edges (out edge01) 1 0 ∧ ¬ edges (in_ edge01) 0 1 ∧
  ∃ g', Link 1 0 edge01 = Done g' ∧ Unlink 1 0 g' = edge01.
Proof.
  assert (H1 : is_Some (out edge01 !! 1)) by (vm_compute; eauto).
  assert (H2 : is_Some (out edge01 !! 0)) by (vm_compute; eauto).
  assert (H3 : is_Some (in_ edge01 !! 0)) by (vm_compute; eauto).
  assert (Ho : ¬ edges (out edge01) 1 0) by (unfold edges; compute_done).
  assert (Hi : ¬ edges (in_ edge01) 0 1) by (unfold edges; compute_done).
  repeat (split; [assumption|]).
  exact (Link_Unlink_round_trip 1 0 edge01 H1 H2 H3 Ho Hi).
Defined.

(** X7.  [Unlink] then [Link] is a round trip too: when both maps have
    the edge and [dst] has its [out] entry, linking the edge just unlinked
    gives the graph back. *)
Theorem Unlink_Link_round_trip src dst g :
  is_Some (out g !! dst) →
  edges (out g) src dst → edges (in_ g) dst src →
  Link src dst (Unlink src dst g) = Done g.
Proof.
  intros Hd (o & Ho & Hdo)%edges_lookup (i & Hi & Hsi)%edges_lookup.
  set (g1 := Unlink src dst g).
  assert (Hs1 : out g1 !! src = Some (o ∖ {[dst]})).
  { simpl. unfold unset. by rewrite lookup_alter_eq, Ho. }
  assert (Hi1 : in_ g1 !! dst = Some (i ∖ {[src]})).
  { simpl. unfold unset. by rewrite lookup_alter_eq, Hi. }
  assert (Hd1 : is_Some (out g1 !! dst)).
  { apply elem_of_dom. simpl. unfold unset. rewrite dom_alter_L.
    by apply elem_of_dom. }
  unfold Link. rewrite (Add_existing src g1) by eauto.
  rewrite (Add_existing dst g1 Hd1), Hs1, Hi1.
  f_equal. destruct g as [mo mi]. simpl in *. f_equal.
  - apply map_eq. intros j. unfold unset.
    destruct (decide (src = j)) as [<-|Hne].
    + rewrite lookup_insert_eq, Ho. f_equal. apply set_eq. intros y.
      rewrite elem_of_union, elem_of_difference, elem_of_singleton.
      split; [intros [[? _]| ->]; done|]. intros Hy.
      destruct (decide (y = dst)); tauto.
    + by rewrite lookup_insert_ne, lookup_alter_ne.
  - apply map_eq. intros j. unfold unset.
    destruct (decide (dst = j)) as [<-|Hne].
    + rewrite lookup_insert_eq, Hi. f_equal. apply set_eq. intros y.
      rewrite elem_of_union, elem_of_difference, elem_of_singleton.
      split; [intros [[? _]| ->]; done|]. intros Hy.
      destruct (decide (y = src)); tauto.
    + by rewrite lookup_insert_ne, lookup_alter_ne.
Qed.

Lemma Unlink_Link_round_trip_witness :
  is_Some (out edge01 !! 1) ∧
  edges (out edge01) 0 1 ∧ edges (in_ edge01) 1 0 ∧
  Link 0 1 (Unlink 0 1 edge01) = Done edge01.
Proof.
  assert (H1 : is_Some (out edge01 !! 1)) by (vm_compute; eauto).
  assert (Ho : edges (out edge01) 0 1) by (unfold edges; compute_done).
  assert (Hi : edges (in_ edge01) 1 0) by (unfold edges; compute_done).
  repeat (split; [assumption|]).
  exact (Unlink_Link_round_trip 0 1 edge01 H1 Ho Hi).
Defined.

(** X8.  [Remove] of a node that has no [out] entry changes nothing, and
    so [Remove] is idempotent: removing a node twice is removing it
    once. *)
Theorem Remove_missing_node node g :
  (out g !! node = None → Remove node g = g) ∧
  Remove node (Remove node g) = Remove node g.
Proof.
  split; [apply Remove_absent|].
  apply Remove_absent. simpl. apply lookup_delete_eq.
Qed.

(** X9.  The loop of [Remove] may visit the successors in any order: the
    [in] map it leaves is the same. *)
Theorem Remove_any_order node dsts g :
  dsts ≡ₚ elements (default ∅ (out g !! node)) →
  scrub node dsts (in_ g) = in_ (Remove node g).
Proof. intros Hp. simpl. by apply scrub_order. Qed.

(** [Link(1,2); Link(2,1); Link(2,3)]. *)
Definition fork2 : Graph :=
  {| out := {[1 := {[2]}; 2 := {[1; 3]}; 3 := ∅]};
     in_ := {[1 := {[2]}; 2 := {[1]}; 3 := {[2]}]} |}.

Lemma Remove_any_order_witness :
  rev (elements (default ∅ (out fork2 !! 2)))
    ≡ₚ elements (default ∅ (out fork2 !! 2)) ∧
  scrub 2 (rev (elements (default ∅ (out fork2 !! 2)))) (in_ fork2)
    = in_ (Remove 2 fork2).
Proof.
  assert (H : rev (elements (default ∅ (out fork2 !! 2)))
              ≡ₚ elements (default ∅ (out fork2 !! 2))).
  { rewrite rev_alt. apply reverse_Permutation. }
  split; [exact H|]. exact (Remove_any_order 2 _ fork2 H).
Defined.

(** X10.  What [Remove] does to the edges: [out] loses the edges that
    leave the node and keeps every other one, among them the edges that
    enter the node; [in] loses the record of the edges that leave the
    node and keeps every other one. *)
Theorem Remove_edges node g :
  (∀ a b, edges (out (Remove node g)) a b ↔ a ≠ node ∧ edges (out g) a b) ∧
  (∀ a b, edges (in_ (Remove node g)) a b
          ↔ edges (in_ g) a b ∧ ¬ (b = node ∧ edges (out g) node a)).
Proof.
  split; intros a b; simpl.
  - apply edges_delete.
  - rewrite edges_scrub, elem_of_elements. unfold edges at 3. tauto.
Qed.

(** X11.  No sequence of [Add], [Remove], [Link] and [Unlink] from the
    empty graph panics; in the graph it builds every key of [out] is a
    key of [in] and every edge recorded in [in] is an edge of [out]. *)
Theorem operations_never_panic os :
  ∃ g, run_ops os New = Done g ∧ half_mirror g.
Proof. apply run_ops_total, New_half_mirror. Qed.

(** Graphs whose maps have the same keys and mirror each other. *)
Definition tidy (g : Graph) : Prop := same_keys g ∧ mirror g.

Definition keeps (o : op) : Prop :=
  match o with
  | OpRemove _ => False
  | _ => True
  end.

Lemma Add_tidy node g : tidy g → tidy (Add node g).
Proof.
  intros [Hk Hm]. split; [by apply Add_same_keys|].
  intros a b. by rewrite Add_out_edges, Add_in_edges.
Qed.

Lemma Unlink_tidy src dst g : tidy g → tidy (Unlink src dst g).
Proof.
  intros [Hk Hm]. split.
  - unfold same_keys, Unlink, unset. simpl. by rewrite !dom_alter_L.
  - intros a b. simpl. rewrite !edges_unset, (Hm a b). tauto.
Qed.

Lemma Link_tidy src dst g :
  tidy g → ∃ g', Link src dst g = Done g' ∧ tidy g'.
Proof.
  intros [Hk Hm].
  destruct (Link_effect src dst g Hk) as (g' & Heq & _ & Hk' & Ho & Hi).
  exists g'. split; [done|]. split; [done|].
  intros a b. rewrite Ho, Hi, (Hm a b). tauto.
Qed.

Lemma run_ops_tidy os g :
  Forall keeps os → tidy g → ∃ g', run_ops os g = Done g' ∧ tidy g'.
Proof.
  intros Hos. revert g. induction Hos as [|o os Ho _ IH]; intros g Hg; simpl.
  - by exists g.
  - destruct o as [n|n|s d|s d]; simpl in *.
    + apply IH. by apply Add_tidy.
    + done.
    + destruct (Link_tidy s d g Hg) as (g' & -> & Hg'). simpl. by apply IH.
    + apply IH. by apply Unlink_tidy.
Qed.

(** X12.  Without [Remove] the mirror invariant holds: every sequence of
    [Add], [Link] and [Unlink] from the empty graph builds a graph whose
    maps have the same keys and in which [dst] is in [out[src]] exactly
    when [src] is in [in[dst]]. *)
Theorem mirror_kept_without_Remove os :
  Forall keeps os →
  ∃ g, run_ops os New = Done g ∧ same_keys g ∧ mirror g.
Proof.
  intros Hos. apply (run_ops_tidy os New Hos). split; [done|].
  intros a b. unfold edges. simpl. by rewrite !lookup_empty.
Qed.

Lemma mirror_kept_without_Remove_witness :
  Forall keeps [OpLink 0 1; OpLink 1 0; OpUnlink 1 0; OpAdd 2] ∧
  ∃ g, run_ops [OpLink 0 1; OpLink 1 0; OpUnlink 1 0; OpAdd 2] New = Done g ∧
       same_keys g ∧ mirror g.
Proof.
  assert (H : Forall keeps [OpLink 0 1; OpLink 1 0; OpUnlink 1 0; OpAdd 2]).
  { repeat constructor. }
  split; [exact H|]. exact (mirror_kept_without_Remove _ H).
Defined.

(** * Further properties of the traversal *)

(** X13.  When [StrongComponents] panics and when it returns: it returns
    exactly when the keys of [out] are [0 .. n-1] and every neighbour such
    a node has in [out] or in [in] is one of them, and it panics (index
    out of range on [d.flip]) in every other case, whatever the iteration
    order. *)
Theorem StrongComponents_panics_iff ord g :
  visits_all ord →
  ((∃ cs, StrongComponents ord g = Done (g, cs)) ↔
   dense g ∧ closed (out g) (size (out g)) ∧ closed (in_ g) (size (out g))) ∧
  (StrongComponents ord g = Panics ↔
   ¬ (dense g ∧ closed (out g) (size (out g)) ∧ closed (in_ g) (size (out g)))).
Proof.
  intros Hord.
  pose proof (StrongComponents_returns_iff ord Hord g) as Hiff.
  split; [exact Hiff|]. split.
  - intros Hp Hall. apply Hiff in Hall as (cs & Hcs). congruence.
  - intros Hnot.
    pose proof (StrongComponents_never_out_of_fuel ord Hord g) as Hfuel.
    destruct (StrongComponents ord g) as [[g' cs]| |] eqn:Heq; [|done|done].
    destruct Hnot. apply Hiff. exists cs.
    by rewrite (StrongComponents_mem ord g g' cs Heq) in Heq |- *.
Qed.

Lemma StrongComponents_panics_iff_witness :
  visits_all descending ∧
  ((∃ cs, StrongComponents descending chain123 = Done (chain123, cs)) ↔
   dense chain123 ∧ closed (out chain123) (size (out chain123))
   ∧ closed (in_ chain123) (size (out chain123))) ∧
  (StrongComponents descending chain123 = Panics ↔
   ¬ (dense chain123 ∧ closed (out chain123) (size (out chain123))
      ∧ closed (in_ chain123) (size (out chain123)))).
Proof.
  split; [exact descending_visits_all|].
  exact (StrongComponents_panics_iff descending chain123
           descending_visits_all).
Defined.

(** X14.  The recursion of [dfs1] and of [dfs2] is as deep as there are
    markers still to flip, at most: called on a node whose marker is
    already flipped, with more levels than that, neither runs out of
    levels, and [StrongComponents], which allows [len(flip) + 1] levels,
    never does. *)
Theorem dfs_depth_bounded ord :
  visits_all ord →
  (∀ fuel node s,
     flip_at (flip (self s)) node = Some true →
     (nfresh true (flip (self s)) < fuel)%nat →
     dfs1 ord fuel node s ≠ OutOfFuel) ∧
  (∀ fuel node s,
     flip_at (flip (self s)) node = Some false →
     (nfresh false (flip (self s)) < fuel)%nat →
     dfs2 ord fuel node s ≠ OutOfFuel) ∧
  (∀ g, StrongComponents ord g ≠ OutOfFuel).
Proof.
  intros Hord. split; [|split].
  - intros fuel node s Hm Hf Heq. rewrite dfs1_dfs in Heq.
    pose proof (dfs_ok_all ord Hord true fuel node s Hm Hf) as H.
    by rewrite Heq in H.
  - intros fuel node s Hm Hf Heq. rewrite dfs2_dfs in Heq.
    pose proof (dfs_ok_all ord Hord false fuel node s Hm Hf) as H.
    by rewrite Heq in H.
  - by apply StrongComponents_never_out_of_fuel.
Qed.

Lemma dfs_depth_bounded_witness :
  visits_all ascending ∧
  (∀ fuel node s,
     flip_at (flip (self s)) node = Some true →
     (nfresh true (flip (self s)) < fuel)%nat →
     dfs1 ascending fuel node s ≠ OutOfFuel) ∧
  (∀ fuel node s,
     flip_at (flip (self s)) node = Some false →
     (nfresh false (flip (self s)) < fuel)%nat →
     dfs2 ascending fuel node s ≠ OutOfFuel) ∧
  (∀ g, StrongComponents ascending g ≠ OutOfFuel).
Proof.
  split; [exact ascending_visits_all|].
  exact (dfs_depth_bounded ascending ascending_visits_all).
Defined.

Lemma StrongComponents_New_witness :
  visits_all ascending ∧ StrongComponents ascending New = Done (New, []).
Proof.
  split; [exact ascending_visits_all|].
  exact (StrongComponents_New ascending ascending_visits_all).
Defined.

Lemma length_concat_nonempty (cs : list (list Z)) :
  (∀ c, c ∈ cs → c ≠ []) → (length cs ≤ length (concat cs))%nat.
Proof.
  induction cs as [|c cs IH]; intros Hne; simpl; [lia|].
  rewrite length_app.
  assert (c ≠ []) by (apply Hne; left).
  assert (length cs ≤ length (concat cs))%nat
    by (apply IH; intros c' Hc'; apply Hne; by right).
  destruct c; [done|]. simpl. lia.
Qed.

(** X16.  Whenever [StrongComponents] returns, its components hold every
    key of [out] exactly once and nothing else, no component is empty, and
    there are at most as many components as nodes. *)
Theorem StrongComponents_result_shape ord g g' cs :
  visits_all ord → StrongComponents ord g = Done (g', cs) →
  concat cs ≡ₚ elements (dom (out g)) ∧
  (∀ c, c ∈ cs → c ≠ []) ∧
  (length cs ≤ size (out g))%nat.
Proof.
  intros Hord Heq. pose proof (StrongComponents_spec ord Hord g) as H.
  rewrite Heq in H. destruct H as [_ H].
  pose proof (co_perm _ _ H) as Hp. pose proof (co_nonempty _ _ H) as Hne.
  split; [done|]. split; [done|].
  pose proof (length_concat_nonempty cs Hne) as Hl.
  rewrite Hp in Hl. rewrite <- size_dom. exact Hl.
Qed.

(** [Link(0,1); Link(1,0); Link(1,2)]: a cycle and a node hanging off it. *)
Definition lasso : Graph :=
  {| out := {[0 := {[1]}; 1 := {[0; 2]}; 2 := ∅]};
     in_ := {[0 := {[1]}; 1 := {[0]}; 2 := {[1]}]} |}.

Example lasso_built :
  run_ops [OpLink 0 1; OpLink 1 0; OpLink 1 2] New = Done lasso.
Proof. vm_compute. reflexivity. Qed.

Example lasso_well_formed : well_formed lasso.
Proof. apply well_formed_check_ok. unfold well_formed_check. compute_done. Defined.

Example lasso_components :
  StrongComponents ascending lasso = Done (lasso, [[1; 0]; [2]]).
Proof. vm_compute. reflexivity. Defined.

Lemma StrongComponents_result_shape_witness :
  visits_all ascending ∧
  StrongComponents ascending lasso = Done (lasso, [[1; 0]; [2]]) ∧
  concat [[1; 0]; [2]] ≡ₚ elements (dom (out lasso)) ∧
  (∀ c, c ∈ [[1; 0]; [2]] → c ≠ []) ∧
  (length [[1; 0]; [2]] ≤ size (out lasso))%nat.
Proof.
  split; [exact ascending_visits_all|]. split; [exact lasso_components|].
  exact (StrongComponents_result_shape ascending lasso lasso [[1; 0]; [2]]
           ascending_visits_all lasso_components).
Defined.

Lemma StrongComponents_strong_witness :
  visits_all descending ∧ well_formed lasso ∧
  ∃ cs, StrongComponents descending lasso = Done (lasso, cs) ∧
        concat cs ≡ₚ elements (dom (out lasso)) ∧
        ∀ u v, u ∈ concat cs → v ∈ concat cs →
               same_component cs u v ↔ mutually_reachable lasso u v.
Proof.
  split; [exact descending_visits_all|]. split; [exact lasso_well_formed|].
  exact (StrongComponents_strong descending lasso descending_visits_all
           lasso_well_formed).
Defined.

(** No edge lies on a cycle. *)
Definition acyclic (g : Graph) : Prop :=
  ∀ a b, edges (out g) a b → ¬ reach (out g) b a.

Lemma singletons_lookup (cs : list (list Z)) i a :
  (∀ c, c ∈ cs → ∃ x, c = [x]) →
  concat cs !! i = Some a → cs !! i = Some [a].
Proof.
  revert i. induction cs as [|c cs IH]; intros i Hs Hi; [done|].
  destruct (Hs c) as [x ->]; [left|]. simpl in Hi.
  destruct i as [|i]; simpl in *; [by injection Hi as ->|].
  apply IH; [|done]. intros c' Hc'. apply Hs. by right.
Qed.

(** X18.  If a graph has no cycles, [StrongComponents] returns each node
    individually, and in dependency order: on a well-formed graph without
    cycles every component is a single node, and for every edge the source
    comes before the target in the list returned. *)
Theorem StrongComponents_acyclic ord g :
  visits_all ord → well_formed g → acyclic g →
  ∃ cs, StrongComponents ord g = Done (g, cs) ∧
        (∀ c, c ∈ cs → ∃ x, c = [x]) ∧
        ∀ i j a b, concat cs !! i = Some a → concat cs !! j = Some b →
                   edges (out g) a b → (i < j)%nat.
Proof.
  intros Hord Hwf Hac.
  destruct (StrongComponents_well_formed ord Hord g Hwf) as (cs & Heq & Hco).
  assert (Hmir : mirror g) by apply Hwf.
  assert (Hsingle : ∀ c, c ∈ cs → ∃ x, c = [x]).
  { intros c Hc. pose proof (co_nonempty _ _ Hco c Hc) as Hne.
    pose proof (concat_elem_NoDup cs c (components_NoDup _ _ Hco) Hc) as Hnd.
    destruct c as [|x [|y c]]; [done|by exists x|]. exfalso.
    assert (Hxy : reach (out g) x y).
    { apply (co_scc _ _ Hco Hmir _ x y Hc); [by left|by right; left]. }
    assert (Hyx : reach (out g) y x).
    { apply (co_scc _ _ Hco Hmir _ y x Hc); [by right; left|by left]. }
    apply rtc_inv in Hxy as [->|(z & Hxz & Hzy)].
    - apply NoDup_cons in Hnd as [Hnd _]. apply Hnd. by left.
    - apply (Hac x z Hxz). by etrans. }
  exists cs. split; [done|]. split; [done|].
  intros i j a b Hi Hj Hab.
  apply (singletons_lookup cs i a Hsingle) in Hi.
  apply (singletons_lookup cs j b Hsingle) in Hj.
  apply (components_order g cs Hco Hmir i j [a] [b] a b); auto.
  - intros ->. rewrite Hi in Hj. injection Hj as ->.
    apply (Hac b b Hab). apply rtc_refl.
  - by apply list_elem_of_singleton.
  - by apply list_elem_of_singleton.
Qed.

Lemma chain012_acyclic : acyclic chain012.
Proof.
  intros a b Hab Hba. apply chain012_edges in Hab.
  apply chain012_reach in Hba. lia.
Defined.

Lemma StrongComponents_acyclic_witness :
  visits_all descending ∧ well_formed chain012 ∧ acyclic chain012 ∧
  ∃ cs, StrongComponents descending chain012 = Done (chain012, cs) ∧
        (∀ c, c ∈ cs → ∃ x, c = [x]) ∧
        ∀ i j a b, concat cs !! i = Some a → concat cs !! j = Some b →
                   edges (out chain012) a b → (i < j)%nat.
Proof.
  split; [exact descending_visits_all|].
  split; [exact chain012_well_formed|]. split; [exact chain012_acyclic|].
  exact (StrongComponents_acyclic descending chain012 descending_visits_all
           chain012_well_formed chain012_acyclic).
Defined.

Lemma same_component_elem cs u v :
  same_component cs u v → u ∈ concat cs ∧ v ∈ concat cs.
Proof.
  intros (c & Hc & Hu & Hv). split; apply elem_of_concat; by exists c.
Qed.

(** X19.  The iteration order of the maps does not change which nodes go
    together: on a well-formed graph two runs of [StrongComponents], each
    with its own iteration orders, return the same nodes grouped in the
    same way. *)
Theorem StrongComponents_same_partition ord ord' g :
  visits_all ord → visits_all ord' → well_formed g →
  ∃ cs cs', StrongComponents ord g = Done (g, cs) ∧
            StrongComponents ord' g = Done (g, cs') ∧
            concat cs ≡ₚ concat cs' ∧
            ∀ u v, same_component cs u v ↔ same_component cs' u v.
Proof.
  intros Hord Hord' Hwf.
  destruct (StrongComponents_well_formed ord Hord g Hwf) as (cs & Heq & Hco).
  destruct (StrongComponents_well_formed ord' Hord' g Hwf)
    as (cs' & Heq' & Hco').
  assert (Hmir : mirror g) by apply Hwf.
  assert (Hp : concat cs ≡ₚ concat cs').
  { by rewrite (co_perm _ _ Hco), (co_perm _ _ Hco'). }
  exists cs, cs'. split; [done|]. split; [done|]. split; [done|].
  intros u v. split; intros Hs.
  - destruct (same_component_elem _ _ _ Hs) as [Hu Hv].
    apply (components_scc g cs Hco u v Hmir Hu Hv) in Hs.
    apply (components_scc g cs' Hco' u v Hmir); [by rewrite <- Hp..|done].
  - destruct (same_component_elem _ _ _ Hs) as [Hu Hv].
    apply (components_scc g cs' Hco' u v Hmir Hu Hv) in Hs.
    apply (components_scc g cs Hco u v Hmir); [by rewrite Hp..|done].
Qed.

Lemma StrongComponents_same_partition_witness :
  visits_all ascending ∧ visits_all descending ∧ well_formed lasso ∧
  ∃ cs cs', StrongComponents ascending lasso = Done (lasso, cs) ∧
            StrongComponents descending lasso = Done (lasso, cs') ∧
            concat cs ≡ₚ concat cs' ∧
            ∀ u v, same_component cs u v ↔ same_component cs' u v.
Proof.
  split; [exact ascending_visits_all|].
  split; [exact descending_visits_all|]. split; [exact lasso_well_formed|].
  exact (StrongComponents_same_partition ascending descending lasso
           ascending_visits_all descending_visits_all lasso_well_formed).
Defined.

(** X20.  Building and searching compose: when a graph is built from the
    empty graph with [Add], [Link] and [Unlink] only and its nodes are
    [0 .. n-1], [StrongComponents] returns on it, each node is in exactly
    one component, and two nodes share a component exactly when they
    reach each other. *)
Theorem StrongComponents_after_building ord os g :
  visits_all ord → Forall keeps os →
  run_ops os New = Done g → dense g →
  ∃ cs, StrongComponents ord g = Done (g, cs) ∧
        concat cs ≡ₚ elements (dom (out g)) ∧
        ∀ u v, u ∈ concat cs → v ∈ concat cs →
               same_component cs u v ↔ mutually_reachable g u v.
Proof.
  intros Hord Hos Hrun Hd.
  assert (Hnew : tidy New).
  { split; [done|]. intros a b. unfold edges. simpl. by rewrite !lookup_empty. }
  destruct (run_ops_tidy os New Hos Hnew) as (g' & Hrun' & Hk & Hm).
  rewrite Hrun in Hrun'. injection Hrun' as <-.
  assert (Hwf : well_formed g) by (split; [exact Hk|by split]).
  destruct (StrongComponents_well_formed ord Hord g Hwf) as (cs & Heq & Hco).
  exists cs. split; [done|]. split; [apply Hco|].
  intros u v Hu Hv. by apply components_scc.
Qed.

Lemma lasso_dense : dense lasso.
Proof. apply lasso_well_formed. Defined.

Lemma StrongComponents_after_building_witness :
  visits_all ascending ∧
  Forall keeps [OpLink 0 1; OpLink 1 0; OpLink 1 2] ∧
  run_ops [OpLink 0 1; OpLink 1 0; OpLink 1 2] New = Done lasso ∧
  dense lasso ∧
  ∃ cs, StrongComponents ascending lasso = Done (lasso, cs) ∧
        concat cs ≡ₚ elements (dom (out lasso)) ∧
        ∀ u v, u ∈ concat cs → v ∈ concat cs →
               same_component cs u v ↔ mutually_reachable lasso u v.
Proof.
  assert (H : Forall keeps [OpLink 0 1; OpLink 1 0; OpLink 1 2]).
  { repeat constructor. }
  assert (Hrun : run_ops [OpLink 0 1; OpLink 1 0; OpLink 1 2] New = Done lasso).
  { vm_compute. reflexivity. }
  split; [exact ascending_visits_all|]. split; [exact H|].
  split; [exact Hrun|]. split; [exact lasso_dense|].
  exact (StrongComponents_after_building ascending _ lasso
           ascending_visits_all H Hrun lasso_dense).
Defined.

(** X21.  The markers and their bounds: [sawTrue] and [sawFalse] panic
    exactly when the node is negative or not below [len(flip)]; otherwise
    they leave the length of [flip] alone, and a second [sawTrue] (or
    [sawFalse]) of the same node reports it as seen. *)
Theorem saw_bounds node s :
  (sawTrue node s = Panics ↔ ¬ 0 ≤ node < Z.of_nat (length (flip (self s)))) ∧
  (sawFalse node s = Panics ↔ ¬ 0 ≤ node < Z.of_nat (length (flip (self s)))) ∧
  (∀ r s', sawTrue node s = Done (r, s') →
           length (flip (self s')) = length (flip (self s)) ∧
           sawTrue node s' = Done (true, s')) ∧
  (∀ r s', sawFalse node s = Done (r, s') →
           length (flip (self s')) = length (flip (self s)) ∧
           sawFalse node s' = Done (true, s')).
Proof.
  assert (Hnone : flip_at (flip (self s)) node = None
                  ↔ ¬ 0 ≤ node < Z.of_nat (length (flip (self s)))).
  { split.
    - intros Hn Hr. apply flip_at_is_Some in Hr as [b Hb]. congruence.
    - intros Hr. destruct (flip_at (flip (self s)) node) as [b|] eqn:Hb; [|done].
      destruct Hr. by apply flip_at_range in Hb. }
  assert (Hagain : ∀ b b0, flip_at (flip (self s)) node = Some b0 →
            flip_at (<[Z.to_nat node:=b]> (flip (self s))) node = Some b ∧
            <[Z.to_nat node:=b]> (<[Z.to_nat node:=b]> (flip (self s)))
              = <[Z.to_nat node:=b]> (flip (self s))).
  { intros b b0 Hb. pose proof (flip_at_range _ _ _ Hb) as Hr. split.
    - unfold flip_at. rewrite decide_True by lia.
      apply list_lookup_insert_eq. lia.
    - apply list_insert_insert_eq. }
  split; [|split; [|split]].
  - unfold sawTrue. rewrite <- Hnone.
    destruct (flip_at (flip (self s)) node); split; done.
  - unfold sawFalse. rewrite <- Hnone.
    destruct (flip_at (flip (self s)) node); split; done.
  - intros r s'. unfold sawTrue.
    destruct (flip_at (flip (self s)) node) as [b0|] eqn:Hb; [|done].
    intros [= <- <-]. simpl. split; [apply length_insert|].
    destruct (Hagain true b0 eq_refl) as [-> Hins].
    unfold set_flip. simpl. by rewrite Hins.
  - intros r s'. unfold sawFalse.
    destruct (flip_at (flip (self s)) node) as [b0|] eqn:Hb; [|done].
    intros [= <- <-]. simpl. split; [apply length_insert|].
    destruct (Hagain false b0 eq_refl) as [-> Hins].
    unfold set_flip. simpl. by rewrite Hins.
Qed.

(** What a search from [node] leaves when it returns, at the polarity
    [pol] of its markers: the graph and the length of [flip] are as
    before; [d.order] has grown by a block without repetition that ends
    in [node]; every other node of the block is reached from [node], had
    its marker unflipped before and has it flipped now; and every
    neighbour of [node] has its marker flipped. *)
Definition searched (pol : bool) (node : Z) (s s' : state) : Prop :=
  mem s' = mem s ∧ graph (self s') = graph (self s) ∧
  length (flip (self s')) = length (flip (self s)) ∧
  ∃ A, order (self s') = order (self s) ++ A ++ [node] ∧
       NoDup (A ++ [node]) ∧
       (∀ y, y ∈ A → reach (emap s) node y ∧
                     flip_at (flip (self s)) y = Some (negb pol) ∧
                     flip_at (flip (self s')) y = Some pol) ∧
       (∀ b, edges (emap s) node b → flip_at (flip (self s')) b = Some pol).

Definition search_outcome (pol : bool) (node : Z) (s : state)
    (r : outcome state) : Prop :=
  match r with
  | Done s' => searched pol node s s'
  | Panics => ¬ closed (emap s) (length (flip (self s)))
  | OutOfFuel => False
  end.

Lemma dfs_search_outcome ord pol fuel node s :
  visits_all ord →
  flip_at (flip (self s)) node = Some pol →
  (nfresh pol (flip (self s)) < fuel)%nat →
  search_outcome pol node s (dfs ord pol fuel node s).
Proof.
  intros Hord Hm Hf.
  pose proof (dfs_ok_all ord Hord pol fuel node s Hm Hf) as H.
  unfold search_outcome. destruct (dfs ord pol fuel node s) as [s'| |]; try done.
  destruct H as (A & Hmem & Hg & Ho & Hb & Hr & Hnb).
  split; [done|]. split; [done|]. split; [apply Hb|].
  exists A. split; [done|]. split; [|split; [|done]].
  - apply NoDup_app. split; [apply Hb|]. split; [|apply NoDup_singleton].
    intros y Hy ->%list_elem_of_singleton.
    apply (marked_not_fresh pol (flip (self s)) node Hm).
    by apply (blk_fresh _ _ _ _ _ Hb).
  - intros y Hy. split; [by apply Hr|]. by apply (blk_fresh _ _ _ _ _ Hb).
Qed.

(** X22.  What [dfs1] does.  Called on a node whose marker is set, with
    levels to spare, it panics only when some node below [len(flip)] has
    a neighbour that is not; otherwise it returns, the graph untouched,
    having appended to [d.order] a block without repetition that ends in
    the node, whose other nodes are reached from it and had their markers
    clear before and set now, and every neighbour of the node has its
    marker set. *)
Theorem dfs1_search ord fuel node s :
  visits_all ord →
  flip_at (flip (self s)) node = Some true →
  (nfresh true (flip (self s)) < fuel)%nat →
  search_outcome true node s (dfs1 ord fuel node s).
Proof. intros. rewrite dfs1_dfs. by apply dfs_search_outcome. Qed.

(** The first [dfs1] of [StrongComponents] on the chain [0 → 1 → 2]:
    root [0], its marker just set. *)
Definition chain012_root : state :=
  set_flip [true; false; false] (start chain012).

Lemma dfs1_search_witness :
  visits_all ascending ∧
  flip_at (flip (self chain012_root)) 0 = Some true ∧
  (nfresh true (flip (self chain012_root)) < 3)%nat ∧
  search_outcome true 0 chain012_root (dfs1 ascending 3 0 chain012_root).
Proof.
  assert (H1 : flip_at (flip (self chain012_root)) 0 = Some true)
    by (vm_compute; reflexivity).
  assert (H2 : (nfresh true (flip (self chain012_root)) < 3)%nat)
    by (vm_compute; lia).
  split; [exact ascending_visits_all|]. split; [exact H1|]. split; [exact H2|].
  exact (dfs1_search ascending 3 0 chain012_root ascending_visits_all H1 H2).
Defined.

(** X23.  What [dfs2] does: the same search with the markers read the
    other way round.  Called on a node whose marker is clear, with levels
    to spare, it panics only when some node below [len(flip)] has a
    neighbour that is not; otherwise it returns, the graph untouched,
    having appended a block without repetition that ends in the node,
    whose other nodes are reached from it and had their markers set before
    and clear now, and every neighbour of the node has its marker clear. *)
Theorem dfs2_search ord fuel node s :
  visits_all ord →
  flip_at (flip (self s)) node = Some false →
  (nfresh false (flip (self s)) < fuel)%nat →
  search_outcome false node s (dfs2 ord fuel node s).
Proof. intros. rewrite dfs2_dfs. by apply dfs_search_outcome. Qed.

(** The first [dfs2] of [StrongComponents] on the chain: all markers set
    by the first pass, root [0] just cleared, [d.graph] now [in]. *)
Definition chain012_root2 : state :=
  set_graph ref_in (set_flip [false; true; true] (start chain012)).

Lemma dfs2_search_witness :
  visits_all ascending ∧
  flip_at (flip (self chain012_root2)) 0 = Some false ∧
  (nfresh false (flip (self chain012_root2)) < 3)%nat ∧
  search_outcome false 0 chain012_root2 (dfs2 ascending 3 0 chain012_root2).
Proof.
  assert (H1 : flip_at (flip (self chain012_root2)) 0 = Some false)
    by (vm_compute; reflexivity).
  assert (H2 : (nfresh false (flip (self chain012_root2)) < 3)%nat)
    by (vm_compute; lia).
  split; [exact ascending_visits_all|]. split; [exact H1|]. split; [exact H2|].
  exact (dfs2_search ascending 3 0 chain012_root2 ascending_visits_all H1 H2).
Defined.
